(** * The MCP client of mcp-client/client.py: model and properties

    [MCPClient] connects one language-model agent to several tool
    servers.  The embedding below follows client.py method by method:
    [initialize_sessions], [cleanup], [chat_loop], [process_query] and
    [main].  Everything the client talks to (the tool servers, the
    chat-completions endpoint, the terminal, the json module) is an
    oracle of the environment [Env]; the client's own control flow,
    its dictionaries and its exit stack are modelled as written. *)

From Stdlib Require Import String Ascii List ZArith Lia.
From Stdlib Require Import DecimalString DecimalNat.
From stdpp Require Import base option list strings gmap fin_maps.

Local Open Scope string_scope.
Local Open Scope list_scope.

(** ** Python values the client handles *)

(** Exception classes.  [except Exception] catches every class that
    derives from [Exception]; [SystemExit], [KeyboardInterrupt] and
    [asyncio.CancelledError] derive from [BaseException] only. *)
Inductive ExcClass :=
| AttributeError
| IndexError
| JSONDecodeError
| EOFError
| OtherException (name : string)
| SystemExit
| KeyboardInterrupt
| CancelledError.

Definition is_Exception (c : ExcClass) : bool :=
  match c with
  | SystemExit | KeyboardInterrupt | CancelledError => false
  | _ => true
  end.

(** An exception object: its class and [str(e)]. *)
Record PyExc := { exc_class : ExcClass; exc_text : string }.

(** What [json.loads] returns. *)
#[local] Unset Elimination Schemes.
Inductive JSON :=
| JNull
| JBool (b : bool)
| JInt (z : Z)
| JFloat (repr : string)
| JStr (s : string)
| JArr (items : list JSON)
| JObj (members : list (string * JSON)).
#[local] Set Elimination Schemes.

(** One block of a tool result's [content] list. *)
Inductive ContentBlock :=
| TextContent (text : string)
| OtherContent (repr : string).

(** Session and transport objects are identified by a handle. *)
Definition Session := nat.
Definition Transport := nat.

(** The two kinds of context managers pushed on the exit stack. *)
Inductive Resource :=
| RTransport (t : Transport)
| RSession (s : Session).

(** A tool as a server advertises it in [list_tools()]. *)
Record Tool := {
  tool_name : string;
  tool_description : option string;
  tool_inputSchema : JSON
}.

(** An entry of [available_tools]:
    [{"type": "function", "function": {"name", "description", "parameters"}}]. *)
Record ToolSpec := {
  spec_name : string;
  spec_description : option string;
  spec_parameters : JSON
}.

(** [tool_call.id], [tool_call.function.name], [tool_call.function.arguments]. *)
Record ToolCall := {
  call_id : string;
  call_name : string;
  call_arguments : string
}.

(** [response.choices[i].message]. *)
Record ChatMessage := {
  msg_content : option string;
  msg_tool_calls : option (list ToolCall)
}.

(** The dictionaries of the [messages] list. *)
Inductive Message :=
| UserMessage (content : string)
| AssistantToolCall (id name arguments : string)
| ToolMessage (tool_call_id content : string).

Definition role (m : Message) : string :=
  match m with
  | UserMessage _ => "user"
  | AssistantToolCall _ _ _ => "assistant"
  | ToolMessage _ _ => "tool"
  end.

(** The value bound to [result] in [process_query]: the object
    [call_tool] returns, or the dictionary the [except] branch builds. *)
Inductive PyResult :=
| CallToolResult (content : list ContentBlock) (isError : bool)
| PyDict (items : list (string * string)).

(** ** The environment *)

Record Env (World : Type) := {
  (** json and string formatting *)
  json_loads : string -> PyExc + JSON;
  json_dumps : JSON -> string;
  str_json : JSON -> string;
  str_content : list ContentBlock -> string;
  str_names : list string -> string;
  str_strip : string -> string;
  str_lower : string -> string;
  (** os.getenv and input() *)
  getenv : string -> World -> option string;
  input : World -> (PyExc + string) * World;
  (** entering stdio_client(StdioServerParameters("python", [source])) *)
  stdio_client : string -> World -> (PyExc + Transport) * World;
  (** entering ClientSession(write, read) *)
  client_session : Transport -> World -> (PyExc + Session) * World;
  (** leaving a context manager: the exception it raises, if any *)
  aexit : Resource -> World -> option PyExc * World;
  (** the session's protocol operations *)
  session_initialize : Session -> World -> (PyExc + unit) * World;
  list_tools : Session -> World -> (PyExc + list Tool) * World;
  call_tool : Session -> string -> JSON -> World -> (PyExc + PyResult) * World;
  (** client.chat.completions.create: the [choices] of the response *)
  chat_create : option string -> list Message -> list ToolSpec -> World ->
                (PyExc + list ChatMessage) * World
}.

Arguments json_loads {World}.
Arguments json_dumps {World}.
Arguments str_json {World}.
Arguments str_content {World}.
Arguments str_names {World}.
Arguments str_strip {World}.
Arguments str_lower {World}.
Arguments getenv {World}.
Arguments input {World}.
Arguments stdio_client {World}.
Arguments client_session {World}.
Arguments aexit {World}.
Arguments session_initialize {World}.
Arguments list_tools {World}.
Arguments call_tool {World}.
Arguments chat_create {World}.

(** ** Observable events

    Every oracle call is logged with what it returned, in program
    order; [print] is logged too. *)
Inductive Event :=
| EvEnter (r : Resource)
| EvExit (r : Resource)
| EvInitialize (s : Session) (r : PyExc + unit)
| EvListTools (s : Session) (r : PyExc + list Tool)
| EvCallTool (s : Session) (name : string) (args : JSON) (r : PyExc + PyResult)
| EvCreate (messages : list Message) (tools : list ToolSpec)
           (r : PyExc + list ChatMessage)
| EvInput (r : PyExc + string)
| EvPrint (text : string).

(** ** The client object *)

Record Client := {
  model_name : option string;
  server_sources : list string;
  sessions : list (string * Session);
  tool_mapping : gmap string (Session * string);
  exit_stack : list Resource
}.

(** [MCPClient.__init__]. *)
Definition MCPClient (model : option string) (sources : list string) : Client :=
  {| model_name := model; server_sources := sources;
     sessions := []; tool_mapping := ∅; exit_stack := [] |}.

(** [d[k] = v] on a dictionary whose iteration order matters: an
    existing key keeps its position, a new key goes last. *)
Fixpoint dict_set {V} (k : string) (v : V) (d : list (string * V)) : list (string * V) :=
  match d with
  | [] => [(k, v)]
  | (k', v') :: d' =>
      if String.eqb k k' then (k, v) :: d' else (k', v') :: dict_set k v d'
  end.

(** [str(i)] for a natural number. *)
Definition str_nat (i : nat) : string := NilEmpty.string_of_uint (Nat.to_uint i).

(** [f"server{i}"]. *)
Definition server_id (i : nat) : string := "server" +:+ str_nat i.

(** [f"{server_id}_{tool.name}"]. *)
Definition prefixed (sid name : string) : string := sid +:+ "_" +:+ name.

(** ["\n".join(parts)]. *)
Fixpoint join_lines (parts : list string) : string :=
  match parts with
  | [] => ""
  | [p] => p
  | p :: rest => p +:+ "
" +:+ join_lines rest
  end.

(** ** The state and the monad of the client's methods *)

(** The world outside, the events so far (oldest first) and the fields
    of [self]. *)
Record St (World : Type) := { world : World; trace : list Event; self : Client }.

Arguments world {World}.
Arguments trace {World}.
Arguments self {World}.

(** How a method ends: it returns, it raises, or the fuel given to
    its loops ran out before it did either. *)
Inductive Outcome (A : Type) :=
| Ret (a : A)
| Raise (e : PyExc)
| OutOfFuel.

Arguments Ret {A}.
Arguments Raise {A}.
Arguments OutOfFuel {A}.

Definition M (World A : Type) := St World -> Outcome A * St World.

Definition ret {W A} (a : A) : M W A := fun s => (Ret a, s).

Definition bind {W A B} (m : M W A) (k : A -> M W B) : M W B :=
  fun s =>
    match m s with
    | (Ret a, s') => k a s'
    | (Raise e, s') => (Raise e, s')
    | (OutOfFuel, s') => (OutOfFuel, s')
    end.

Definition raise {W A} (e : PyExc) : M W A := fun s => (Raise e, s).

Definition out_of_fuel {W A} : M W A := fun s => (OutOfFuel, s).

Notation "x <- m ;; k" := (bind m (fun x => k))
  (at level 100, m at next level, right associativity).
Notation "m ;;; k" := (bind m (fun _ => k))
  (at level 100, right associativity).

(** [try: body except Exception as e: handler(e)]. *)
Definition try_except {W A} (body : M W A) (handler : PyExc -> M W A) : M W A :=
  fun s =>
    match body s with
    | (Raise e, s') =>
        if is_Exception (exc_class e) then handler e s' else (Raise e, s')
    | r => r
    end.

(** [try: body finally: final].  An exception of [final] replaces the
    outcome of [body]. *)
Definition try_finally {W A} (body : M W A) (final : M W unit) : M W A :=
  fun s =>
    match body s with
    | (OutOfFuel, s') => (OutOfFuel, s')
    | (r, s') =>
        match final s' with
        | (Ret _, s'') => (r, s'')
        | (Raise e, s'') => (Raise e, s'')
        | (OutOfFuel, s'') => (OutOfFuel, s'')
        end
    end.

Definition log {W} (ev : Event) : M W unit :=
  fun s => (Ret tt, {| world := world s; trace := trace s ++ [ev]; self := self s |}).

Definition print {W} (text : string) : M W unit := log (EvPrint text).

Definition get_self {W} : M W Client := fun s => (Ret (self s), s).

Definition set_self {W} (c : Client) : M W unit :=
  fun s => (Ret tt, {| world := world s; trace := trace s; self := c |}).

(** An awaited call to the outside: the world moves on, the call is
    logged with its result, an error result is raised. *)
Definition await {W A} (f : W -> (PyExc + A) * W) (ev : PyExc + A -> Event) : M W A :=
  fun s =>
    let (r, w) := f (world s) in
    let s' := {| world := w; trace := trace s ++ [ev r]; self := self s |} in
    match r with
    | inl e => (Raise e, s')
    | inr a => (Ret a, s')
    end.

(** ** The methods of [MCPClient] *)

Section Client.

Context {World : Type} (env : Env World).

(** [await self.exit_stack.enter_async_context(cm)]: when entering
    succeeds the context manager is pushed on the stack (head = top). *)
Definition enter_async_context {A} (f : World -> (PyExc + A) * World)
    (res : A -> Resource) : M World A :=
  fun s =>
    let (r, w) := f (world s) in
    match r with
    | inl e => (Raise e, {| world := w; trace := trace s; self := self s |})
    | inr a =>
        let c := self s in
        (Ret a,
         {| world := w;
            trace := trace s ++ [EvEnter (res a)];
            self := {| model_name := model_name c;
                       server_sources := server_sources c;
                       sessions := sessions c;
                       tool_mapping := tool_mapping c;
                       exit_stack := res a :: exit_stack c |} |})
    end.

(** [self.sessions[server_id] = session]. *)
Definition set_session (sid : string) (session : Session) : M World unit :=
  fun s =>
    let c := self s in
    (Ret tt,
     {| world := world s; trace := trace s;
        self := {| model_name := model_name c;
                   server_sources := server_sources c;
                   sessions := dict_set sid session (sessions c);
                   tool_mapping := tool_mapping c;
                   exit_stack := exit_stack c |} |}).

(** [self.tool_mapping[prefixed_name] = (session, tool.name)]. *)
Definition set_tool_mapping (key : string) (v : Session * string) : M World unit :=
  fun s =>
    let c := self s in
    (Ret tt,
     {| world := world s; trace := trace s;
        self := {| model_name := model_name c;
                   server_sources := server_sources c;
                   sessions := sessions c;
                   tool_mapping := <[key := v]> (tool_mapping c);
                   exit_stack := exit_stack c |} |}).

(** Lines 51-53: [for tool in response.tools: ...]. *)
Fixpoint register_tools (sid : string) (session : Session) (tools : list Tool) : M World unit :=
  match tools with
  | [] => ret tt
  | tool :: rest =>
      let prefixed_name := prefixed sid (tool_name tool) in
      set_tool_mapping prefixed_name (session, tool_name tool) ;;;
      register_tools sid session rest
  end.

(** Lines 36-54: the body of [for i, server_source in enumerate(...)]. *)
Definition connect_server (i : nat) (server_source : string) : M World unit :=
  let sid := server_id i in
  transport <- enter_async_context (stdio_client env server_source) RTransport ;;
  session <- enter_async_context (client_session env transport) RSession ;;
  await (session_initialize env session) (EvInitialize session) ;;;
  set_session sid session ;;;
  tools <- await (list_tools env session) (EvListTools session) ;;
  register_tools sid session tools ;;;
  print ("
已连接到服务器 " +:+ sid +:+ "，支持以下工具:" +:+ " " +:+ str_names env (map tool_name tools)).

(** Line 35: the loop, from index [i] on. *)
Fixpoint initialize_from (i : nat) (sources : list string) : M World unit :=
  match sources with
  | [] => ret tt
  | server_source :: rest =>
      connect_server i server_source ;;;
      initialize_from (S i) rest
  end.

Definition initialize_sessions : M World unit :=
  c <- get_self ;;
  initialize_from 0 (server_sources c).

(** [AsyncExitStack.aclose()]: callbacks are popped and run last-in
    first-out; an exception of a callback does not stop the unwinding,
    the last one raised is re-raised at the end. *)
Definition pop_exit_stack : M World unit :=
  fun s =>
    let c := self s in
    (Ret tt,
     {| world := world s; trace := trace s;
        self := {| model_name := model_name c;
                   server_sources := server_sources c;
                   sessions := sessions c;
                   tool_mapping := tool_mapping c;
                   exit_stack := tail (exit_stack c) |} |}).

Definition run_aexit (r : Resource) : M World (option PyExc) :=
  fun s =>
    let (x, w) := aexit env r (world s) in
    (Ret x, {| world := w; trace := trace s ++ [EvExit r]; self := self s |}).

Fixpoint aclose_from (stack : list Resource) (pending : option PyExc) : M World unit :=
  match stack with
  | [] =>
      match pending with
      | Some e => raise e
      | None => ret tt
      end
  | r :: rest =>
      pop_exit_stack ;;;
      x <- run_aexit r ;;
      aclose_from rest (match x with Some e => Some e | None => pending end)
  end.

(** [cleanup]: [await self.exit_stack.aclose()]. *)
Definition cleanup : M World unit :=
  c <- get_self ;;
  aclose_from (exit_stack c) None.

(** Lines 112-124: the catalog sent to the model, one entry per tool
    of every session in [self.sessions], in iteration order. *)
Definition tool_spec (sid : string) (tool : Tool) : ToolSpec :=
  {| spec_name := prefixed sid (tool_name tool);
     spec_description := tool_description tool;
     spec_parameters := tool_inputSchema tool |}.

Fixpoint collect_tools (items : list (string * Session)) (available_tools : list ToolSpec)
  : M World (list ToolSpec) :=
  match items with
  | [] => ret available_tools
  | (sid, session) :: rest =>
      tools <- await (list_tools env session) (EvListTools session) ;;
      collect_tools rest (available_tools ++ map (tool_spec sid) tools)
  end.

(** [response.choices[0].message]. *)
Definition first_choice (choices : list ChatMessage) : M World ChatMessage :=
  match choices with
  | message :: _ => ret message
  | [] => raise {| exc_class := IndexError; exc_text := "list index out of range" |}
  end.

(** [await self.client.chat.completions.create(model, messages, tools)]
    followed by [response.choices[0].message]. *)
Definition create_message (messages : list Message) (tools : list ToolSpec)
  : M World ChatMessage :=
  c <- get_self ;;
  choices <- await (chat_create env (model_name c) messages tools) (EvCreate messages tools) ;;
  first_choice choices.

(** [result.content]: an attribute of the object [call_tool] returns;
    a dictionary has no such attribute. *)
Definition dict_has_no_content : PyExc :=
  {| exc_class := AttributeError;
     exc_text := "'dict' object has no attribute 'content'" |}.

Definition result_content (result : PyResult) : M World (list ContentBlock) :=
  match result with
  | CallToolResult content _ => ret content
  | PyDict _ => raise dict_has_no_content
  end.

(** Lines 141-146: the call and its [except Exception] handler. *)
Definition call_tool_guarded (session : Session) (original_tool_name : string)
    (tool_args : JSON) : M World PyResult :=
  try_except
    (await (call_tool env session original_tool_name tool_args)
           (EvCallTool session original_tool_name tool_args))
    (fun e =>
       let text := "调用工具 " +:+ original_tool_name +:+ " 出错：" +:+ exc_text e in
       print text ;;;
       ret (PyDict [("content", text)])).

(** [json.loads(tool_call.function.arguments)]. *)
Definition loads (arguments : string) : M World JSON :=
  match json_loads env arguments with
  | inl e => raise e
  | inr v => ret v
  end.

Definition not_found_text (prefixed_name : string) : string :=
  "工具 " +:+ prefixed_name +:+ " 未找到".

(** Lines 137-163: the body of [for tool_call in message.tool_calls],
    on the local lists [messages] and [final_text]. *)
Definition process_tool_call (tool_call : ToolCall)
    (messages : list Message) (final_text : list string)
  : M World (list Message * list string) :=
  let prefixed_name := call_name tool_call in
  c <- get_self ;;
  match tool_mapping c !! prefixed_name with
  | Some (session, original_tool_name) =>
      tool_args <- loads (call_arguments tool_call) ;;
      result <- call_tool_guarded session original_tool_name tool_args ;;
      let final_text :=
        final_text ++ ["[调用工具 " +:+ prefixed_name +:+ " 参数: " +:+ str_json env tool_args +:+ "]"] in
      content <- result_content result ;;
      let final_text := final_text ++ ["工具结果: " +:+ str_content env content] in
      content' <- result_content result ;;
      ret (messages ++
             [AssistantToolCall (call_id tool_call) prefixed_name (json_dumps env tool_args);
              ToolMessage (call_id tool_call) (str_content env content')],
           final_text)
  | None =>
      print (not_found_text prefixed_name) ;;;
      ret (messages, final_text ++ [not_found_text prefixed_name])
  end.

Fixpoint for_tool_calls (tool_calls : list ToolCall)
    (messages : list Message) (final_text : list string)
  : M World (list Message * list string) :=
  match tool_calls with
  | [] => ret (messages, final_text)
  | tool_call :: rest =>
      r <- process_tool_call tool_call messages final_text ;;
      for_tool_calls rest (fst r) (snd r)
  end.

(** [if message.content: final_text.append(message.content)]. *)
Definition append_content (final_text : list string) (message : ChatMessage) : list string :=
  match msg_content message with
  | Some (String a t) => final_text ++ [String a t]
  | _ => final_text
  end.

(** Lines 136-172: one pass through the body of the [while]. *)
Definition while_body (tool_calls : list ToolCall) (messages : list Message)
    (final_text : list string) (available_tools : list ToolSpec)
  : M World (ChatMessage * list Message * list string) :=
  r <- for_tool_calls tool_calls messages final_text ;;
  message <- create_message (fst r) available_tools ;;
  ret (message, fst r, append_content (snd r) message).

(** Lines 135-173: [while message.tool_calls: ...] and the [return].
    [fuel] bounds the number of passes that are followed. *)
Fixpoint while_tool_calls (fuel : nat) (message : ChatMessage) (messages : list Message)
    (final_text : list string) (available_tools : list ToolSpec) : M World string :=
  match msg_tool_calls message with
  | Some (tool_call :: rest) =>
      match fuel with
      | O => out_of_fuel
      | S fuel' =>
          r <- while_body (tool_call :: rest) messages final_text available_tools ;;
          while_tool_calls fuel' (fst (fst r)) (snd (fst r)) (snd r) available_tools
      end
  | _ => ret (join_lines final_text)
  end.

(** [message.content or ""]. *)
Definition content_or_empty (message : ChatMessage) : string :=
  match msg_content message with
  | Some text => text
  | None => ""
  end.

Definition process_query (fuel : nat) (query : string) : M World string :=
  let messages := [UserMessage query] in
  c <- get_self ;;
  available_tools <- collect_tools (sessions c) [] ;;
  message <- create_message messages available_tools ;;
  let final_text := [content_or_empty message] in
  while_tool_calls fuel message messages final_text available_tools.

(** Lines 96-100: the body of the [try] in [chat_loop]; [true]
    stands for [break].  [fuel] is handed to [process_query]. *)
Definition chat_turn (fuel : nat) : M World bool :=
  line <- await (input env) EvInput ;;
  let query := str_strip env line in
  if String.eqb (str_lower env query) "quit" then ret true
  else
    response <- process_query fuel query ;;
    print ("
" +:+ response) ;;;
    ret false.

(** Lines 94-102: [while True: try: ... except Exception as e: ...];
    [turns] bounds the number of prompts that are followed. *)
Fixpoint chat_while (fuel turns : nat) : M World unit :=
  match turns with
  | O => out_of_fuel
  | S turns' =>
      stop <- try_except
                (chat_turn fuel)
                (fun e =>
                   print ("
发生错误: " +:+ exc_text e) ;;;
                   ret false) ;;
      if stop then ret tt else chat_while fuel turns'
  end.

(** Lines 88-102: the banner, then the loop. *)
Definition chat_loop (fuel turns : nat) : M World unit :=
  print "
MCP 客户端已启动，输入你的问题，输入 'quit' 退出。" ;;;
  chat_while fuel turns.

(** Lines 195-199 of [main]: the [try] ... [finally] around the
    client's life. *)
Definition run_client (fuel turns : nat) : M World unit :=
  try_finally (initialize_sessions ;;; chat_loop fuel turns) cleanup.

Definition server_sources_of_main : list string :=
  ["D:/ZQY/mcp-server-weather/mcp-server/amap_server.py"].

(** [not api_key]: unset or empty. *)
Definition falsy (v : option string) : bool :=
  match v with
  | Some (String _ _) => false
  | _ => true
  end.

Definition main (fuel turns : nat) : M World unit :=
  fun s =>
    let model := getenv env "MODEL_ID" (world s) in
    let api_key := getenv env "OPENAI_API_KEY" (world s) in
    if falsy api_key then
      (print "未设置 API_KEY 环境变量。" ;;;
       raise {| exc_class := SystemExit; exc_text := "1" |}) s
    else
      (set_self (MCPClient model server_sources_of_main) ;;;
       run_client fuel turns) s.

End Client.

(** ** Reading a trace *)

(** The events a run added: those of [s'] after the ones of [s]. *)
Definition new_events {W} (s s' : St W) : list Event :=
  drop (length (trace s)) (trace s').

Definition is_create (ev : Event) : bool :=
  match ev with EvCreate _ _ _ => true | _ => false end.

Definition is_call_tool (ev : Event) : bool :=
  match ev with EvCallTool _ _ _ _ => true | _ => false end.

Definition is_list_tools (ev : Event) : bool :=
  match ev with EvListTools _ _ => true | _ => false end.

(** The context managers entered, oldest first. *)
Fixpoint entered (evs : list Event) : list Resource :=
  match evs with
  | [] => []
  | EvEnter r :: rest => r :: entered rest
  | _ :: rest => entered rest
  end.

(** The context managers left, oldest first. *)
Fixpoint exited (evs : list Event) : list Resource :=
  match evs with
  | [] => []
  | EvExit r :: rest => r :: exited rest
  | _ :: rest => exited rest
  end.

(** The successful [list_tools()] answers, oldest first. *)
Fixpoint advertised (evs : list Event) : list (Session * list Tool) :=
  match evs with
  | [] => []
  | EvListTools s (inr tools) :: rest => (s, tools) :: advertised rest
  | _ :: rest => advertised rest
  end.

(** The message lists sent with the inference calls, oldest first. *)
Fixpoint conversations (evs : list Event) : list (list Message) :=
  match evs with
  | [] => []
  | EvCreate messages _ _ :: rest => messages :: conversations rest
  | _ :: rest => conversations rest
  end.

(** The catalogs sent with the inference calls, oldest first. *)
Fixpoint catalogs (evs : list Event) : list (list ToolSpec) :=
  match evs with
  | [] => []
  | EvCreate _ tools _ :: rest => tools :: catalogs rest
  | _ :: rest => catalogs rest
  end.

(** What the for-loop over the requests may add to the trace. *)
Definition tool_event (ev : Event) : Prop :=
  match ev with
  | EvCallTool _ _ _ _ | EvPrint _ => True
  | _ => False
  end.

(** What the tool-call loop may add to the trace when the catalog is
    [tools]: tool calls, printed lines, and inference calls carrying
    [tools]. *)
Definition loop_event (tools : list ToolSpec) (ev : Event) : Prop :=
  match ev with
  | EvCallTool _ _ _ _ | EvPrint _ => True
  | EvCreate _ tools' _ => tools' = tools
  | _ => False
  end.

(** [s'] comes after [s]: same client, and the events added all
    satisfy [P]. *)
Definition extends {W} (P : Event -> Prop) (s s' : St W) : Prop :=
  self s' = self s /\ exists evs, trace s' = trace s ++ evs /\ Forall P evs.


(** A tool call that returned a result object. *)
Record Invocation := {
  inv_session : Session;
  inv_name : string;
  inv_args : JSON;
  inv_content : list ContentBlock;
  inv_isError : bool
}.

Definition invocation_event (i : Invocation) : Event :=
  EvCallTool (inv_session i) (inv_name i) (inv_args i)
             (inr (CallToolResult (inv_content i) (inv_isError i))).

(** The invocation [i] is the one the request [tool_call] asks for:
    the session and the original name its prefixed name maps to, and
    its parsed arguments. *)
Definition answers {W} (env : Env W) (c : Client) (tool_call : ToolCall) (i : Invocation) : Prop :=
  tool_mapping c !! call_name tool_call = Some (inv_session i, inv_name i) /\
  json_loads env (call_arguments tool_call) = inr (inv_args i).

(** The two messages recorded for a request and its invocation. *)
Definition call_records {W} (env : Env W) (tool_call : ToolCall) (i : Invocation) : list Message :=
  [AssistantToolCall (call_id tool_call) (call_name tool_call) (json_dumps env (inv_args i));
   ToolMessage (call_id tool_call) (str_content env (inv_content i))].

(** The entries [initialize_sessions] writes for server number [i],
    in the order of its tool list. *)
Definition server_entries (i : nat) (session : Session) (tools : list Tool)
  : list (string * (Session * string)) :=
  map (fun tool => (prefixed (server_id i) (tool_name tool), (session, tool_name tool)))
      tools.

(** The entries written for the servers numbered from [i] on, given
    the session and the tool list of each. *)
Fixpoint entries_from (i : nat) (adv : list (Session * list Tool))
  : list (string * (Session * string)) :=
  match adv with
  | [] => []
  | (session, tools) :: rest => server_entries i session tools ++ entries_from (S i) rest
  end.

(** Dictionary assignments, one after the other. *)
Definition insert_all (l : list (string * (Session * string)))
    (m : gmap string (Session * string)) : gmap string (Session * string) :=
  foldl (fun m kv => <[fst kv := snd kv]> m) m l.

(** The number of tools the servers advertise, summed over the servers. *)
Definition tool_count (adv : list (Session * list Tool)) : nat :=
  sum_list (map (fun st => length (snd st)) adv).

(** The number of tools the servers advertise, summed over the
    servers, a name that a server lists more than once counting once
    for that server. *)
Definition distinct_tool_count (adv : list (Session * list Tool)) : nat :=
  sum_list (map (fun st => length (remove_dups (map tool_name (snd st)))) adv).

(** No server lists the same tool name twice. *)
Definition names_distinct (adv : list (Session * list Tool)) : Prop :=
  Forall (fun st => NoDup (map tool_name (snd st))) adv.

Definition is_digit (a : ascii) : bool :=
  (48 <=? nat_of_ascii a)%nat && (nat_of_ascii a <=? 57)%nat.

Fixpoint all_digits (s : string) : bool :=
  match s with
  | EmptyString => true
  | String a rest => is_digit a && all_digits rest
  end.

(** Between [s] and [s'] context managers were only entered, and
    each one entered was pushed on the exit stack. *)
Definition stacked {W} (s s' : St W) : Prop :=
  exists evs,
    trace s' = trace s ++ evs /\
    exited evs = [] /\
    exit_stack (self s') = rev (entered evs) ++ exit_stack (self s).

(** The state in which the loop of [chat_loop] starts: the banner has
    been printed. *)
Definition after_banner {W} (s : St W) : St W :=
  {| world := world s;
     trace := trace s ++ [EvPrint "
MCP 客户端已启动，输入你的问题，输入 'quit' 退出。"];
     self := self s |}.

(** Events that neither enter nor leave a context manager. *)
Definition quiet (ev : Event) : Prop :=
  match ev with
  | EvEnter _ | EvExit _ => False
  | _ => True
  end.

(** ** Example environments *)

Module Examples.

(** A small world: how many transports were opened, how many tool
    calls were made, and the lines waiting on the terminal. *)
Record ExWorld := { opened : nat; calls : nat; stdin : list string }.

(** A small [json.loads]: it accepts the empty object only.  The
    error texts are those of CPython for a text that opens an object
    and goes on with a name without quotes, and for a text that does
    not start a JSON value. *)
Definition ex_loads (a : string) : PyExc + JSON :=
  if String.eqb a "{}" then inr (JObj [])
  else
    match a with
    | String "{" _ =>
        inl {| exc_class := JSONDecodeError;
               exc_text := "Expecting property name enclosed in double quotes: line 1 column 2 (char 1)" |}
    | _ =>
        inl {| exc_class := JSONDecodeError;
               exc_text := "Expecting value: line 1 column 1 (char 0)" |}
    end.

Definition ex_str_content (c : list ContentBlock) : string :=
  String.concat "," (map (fun b => match b with TextContent t => t | OtherContent r => r end) c).

Definition ex_input (w : ExWorld) : (PyExc + string) * ExWorld :=
  match stdin w with
  | [] => (inl {| exc_class := KeyboardInterrupt; exc_text := "" |}, w)
  | line :: rest => (inr line, {| opened := opened w; calls := calls w; stdin := rest |})
  end.

(** Sources named "missing.py" cannot be started. *)
Definition ex_stdio_client (source : string) (w : ExWorld) : (PyExc + Transport) * ExWorld :=
  if String.eqb source "missing.py" then
    (inl {| exc_class := OtherException "FileNotFoundError"; exc_text := "missing.py" |}, w)
  else
    (inr (opened w), {| opened := S (opened w); calls := calls w; stdin := stdin w |}).

Definition tick (w : ExWorld) : ExWorld :=
  {| opened := opened w; calls := S (calls w); stdin := stdin w |}.

(** The environment is built from the servers' tool lists (which may
    depend on the number of calls made so far), the behaviour of a
    tool and the behaviour of the model. *)
Definition ex_env
    (tools : Session -> nat -> list Tool)
    (tool : Session -> string -> JSON -> PyExc + PyResult)
    (model : list Message -> list ChatMessage) : Env ExWorld :=
  {| json_loads := ex_loads;
     json_dumps := fun _ => "{}";
     str_json := fun _ => "{}";
     str_content := ex_str_content;
     str_names := String.concat ",";
     str_strip := fun s => s;
     str_lower := fun s => s;
     getenv := fun name _ => Some "set";
     input := ex_input;
     stdio_client := ex_stdio_client;
     client_session := fun t w => (inr t, w);
     aexit := fun _ w => (None, w);
     session_initialize := fun _ w => (inr tt, w);
     list_tools := fun s w => (inr (tools s (calls w)), w);
     call_tool := fun s name args w => (tool s name args, tick w);
     chat_create := fun _ messages _ w => (inr (model messages), w) |}.

Definition get_weather : Tool :=
  {| tool_name := "get_weather"; tool_description := Some "weather of a city";
     tool_inputSchema := JObj [] |}.

Definition get_alerts : Tool :=
  {| tool_name := "get_alerts"; tool_description := None; tool_inputSchema := JObj [] |}.

Definition sunny (_ : Session) (_ : string) (_ : JSON) : PyExc + PyResult :=
  inr (CallToolResult [TextContent "sunny"] false).

Definition broken (_ : Session) (_ : string) (_ : JSON) : PyExc + PyResult :=
  inl {| exc_class := OtherException "McpError"; exc_text := "timed out" |}.

Definition request (id name arguments : string) : ToolCall :=
  {| call_id := id; call_name := name; call_arguments := arguments |}.

Definition says (text : string) : ChatMessage :=
  {| msg_content := Some text; msg_tool_calls := None |}.

Definition asks (tool_calls : list ToolCall) : ChatMessage :=
  {| msg_content := None; msg_tool_calls := Some tool_calls |}.

(** A model that asks for [tool_calls] once, then answers [text]. *)
Definition ask_once (tool_calls : list ToolCall) (text : string)
    (messages : list Message) : list ChatMessage :=
  match messages with
  | [_] => [asks tool_calls]
  | _ => [says text]
  end.


Definition start (sources : list string) (lines : list string) : St ExWorld :=
  {| world := {| opened := 0; calls := 0; stdin := lines |};
     trace := [];
     self := MCPClient (Some "deepseek-chat") sources |}.

(** The state after [initialize_sessions] in [env] from [start]. *)
Definition ready (env : Env ExWorld) (sources : list string) : St ExWorld :=
  snd (initialize_sessions env (start sources [])).

Definition always (tools : list Tool) (_ : Session) (_ : nat) : list Tool := tools.

Definition two_requests : list ToolCall :=
  [request "c1" "server1_get_weather" "{}"; request "c2" "server0_get_alerts" "{}"].

(** Two servers with the same two tools; the model asks for one tool
    of each and then answers. *)
Definition weather_env : Env ExWorld :=
  ex_env (always [get_weather; get_alerts]) sunny (ask_once two_requests "done").

(** The model answers at once. *)
Definition plain_env : Env ExWorld :=
  ex_env (always [get_weather]) sunny (fun _ => [says "hello"]).

(** The tool raises. *)
Definition broken_env : Env ExWorld :=
  ex_env (always [get_weather]) broken
         (ask_once [request "c1" "server0_get_weather" "{}"] "done").

(** The model sends arguments that are not JSON. *)
Definition bad_json_env : Env ExWorld :=
  ex_env (always [get_weather]) sunny
         (ask_once [request "c1" "server0_get_weather" "{city: Paris"] "done").

(** The model asks for a tool nobody registered. *)
Definition unknown_env : Env ExWorld :=
  ex_env (always [get_weather]) sunny
         (ask_once [request "c2" "server0_get_forecast" "{}"] "done").


(** The server offers a second tool once a tool has been called. *)
Definition growing (_ : Session) (calls : nat) : list Tool :=
  match calls with
  | O => [get_weather]
  | S _ => [get_weather; get_alerts]
  end.

Definition growing_env : Env ExWorld :=
  ex_env growing sunny (ask_once [request "c1" "server0_get_weather" "{}"] "done").

(** The server lists the same tool twice. *)
Definition twice_env : Env ExWorld :=
  ex_env (always [get_weather; get_weather]) sunny (fun _ => [says "hello"]).

(** Collecting the catalog on the initialized client. *)
Definition weather_collect : Outcome (list ToolSpec) * St ExWorld :=
  collect_tools weather_env (sessions (self (ready weather_env ["a.py"; "b.py"]))) []
                (ready weather_env ["a.py"; "b.py"]).

(** [env] with a terminal at end of file. *)
Definition at_eof (env : Env ExWorld) : Env ExWorld :=
  {| json_loads := json_loads env;
     json_dumps := json_dumps env;
     str_json := str_json env;
     str_content := str_content env;
     str_names := str_names env;
     str_strip := str_strip env;
     str_lower := str_lower env;
     getenv := getenv env;
     input := fun w => (inl {| exc_class := EOFError;
                               exc_text := "EOF when reading a line" |}, w);
     stdio_client := stdio_client env;
     client_session := client_session env;
     aexit := aexit env;
     session_initialize := session_initialize env;
     list_tools := list_tools env;
     call_tool := call_tool env;
     chat_create := chat_create env |}.

End Examples.

(** ** The turns of the tool-call loop as a step relation *)

Section Turns.

Context {World : Type} (env : Env World).

(** The variables of the [while] loop at its test. *)
Record LoopState := {
  ls_message : ChatMessage;
  ls_messages : list Message;
  ls_final_text : list string;
  ls_state : St World
}.

(** One pass through the body that reaches the test again. *)
Inductive pass (available_tools : list ToolSpec) : LoopState -> LoopState -> Prop :=
| pass_intro ls tool_call rest message messages final_text s' :
    msg_tool_calls (ls_message ls) = Some (tool_call :: rest) ->
    while_body env (tool_call :: rest) (ls_messages ls) (ls_final_text ls)
               available_tools (ls_state ls)
      = (Ret (message, messages, final_text), s') ->
    pass available_tools ls
      {| ls_message := message; ls_messages := messages;
         ls_final_text := final_text; ls_state := s' |}.

(** [process_query] reaches the test of the loop for the first time. *)
Definition query_start (query : string) (s : St World)
    (available_tools : list ToolSpec) (ls : LoopState) : Prop :=
  exists s1,
    collect_tools env (sessions (self s)) [] s = (Ret available_tools, s1) /\
    create_message env [UserMessage query] available_tools s1
      = (Ret (ls_message ls), ls_state ls) /\
    ls_messages ls = [UserMessage query] /\
    ls_final_text ls = [content_or_empty (ls_message ls)].

(** The loop as run from a loop state. *)
Definition while_from (fuel : nat) (available_tools : list ToolSpec) (ls : LoopState)
  : Outcome string * St World :=
  while_tool_calls env fuel (ls_message ls) (ls_messages ls) (ls_final_text ls)
                   available_tools (ls_state ls).

End Turns.

(** ** The SSE variant of the initialization *)

Section Sse.

Context {World : Type} (env : Env World).

(** Entering [sse_client(url=server_source)]. *)
Context (sse_client : string -> World -> (PyExc + Transport) * World).

(** Lines 62-80: the body of the loop of [initialize_sessions_sse]. *)
Definition connect_server_sse (i : nat) (server_source : string) : M World unit :=
  let sid := server_id i in
  transport <- enter_async_context (sse_client server_source) RTransport ;;
  session <- enter_async_context (client_session env transport) RSession ;;
  await (session_initialize env session) (EvInitialize session) ;;;
  set_session sid session ;;;
  tools <- await (list_tools env session) (EvListTools session) ;;
  register_tools sid session tools ;;;
  print ("
已连接到服务器 " +:+ sid +:+ "，支持以下工具:" +:+ " " +:+ str_names env (map tool_name tools)).

(** Line 61: the loop, from index [i] on. *)
Fixpoint initialize_from_sse (i : nat) (sources : list string) : M World unit :=
  match sources with
  | [] => ret tt
  | server_source :: rest =>
      connect_server_sse i server_source ;;;
      initialize_from_sse (S i) rest
  end.

Definition initialize_sessions_sse : M World unit :=
  c <- get_self ;;
  initialize_from_sse 0 (server_sources c).

(** The environment in which subprocess servers are reached the way
    SSE servers are. *)
Definition with_connector : Env World :=
  {| json_loads := json_loads env;
     json_dumps := json_dumps env;
     str_json := str_json env;
     str_content := str_content env;
     str_names := str_names env;
     str_strip := str_strip env;
     str_lower := str_lower env;
     getenv := getenv env;
     input := input env;
     stdio_client := sse_client;
     client_session := client_session env;
     aexit := aexit env;
     session_initialize := session_initialize env;
     list_tools := list_tools env;
     call_tool := call_tool env;
     chat_create := chat_create env |}.

End Sse.

(** ** More ways of reading a run *)

(** Assistant tool-call records, each followed at once by the tool
    message that answers it (same id). *)
Inductive paired : list Message -> Prop :=
| paired_nil : paired []
| paired_cons id name arguments content rest :
    paired rest ->
    paired (AssistantToolCall id name arguments :: ToolMessage id content :: rest).

(** The shape of a conversation of the query [query]: the user's
    message, then paired records. *)
Definition conversation_of (query : string) (messages : list Message) : Prop :=
  exists records, messages = UserMessage query :: records /\ paired records.

(** The tool calls made, oldest first: session and original name. *)
Fixpoint dispatched (evs : list Event) : list (Session * string) :=
  match evs with
  | [] => []
  | EvCallTool s name _ _ :: rest => (s, name) :: dispatched rest
  | _ :: rest => dispatched rest
  end.

(** The pair is the value of some key of [tool_mapping]. *)
Definition registered (c : Client) (target : Session * string) : Prop :=
  exists key, tool_mapping c !! key = Some target.

(** An inference call, if [ev] is one, is sent a conversation of
    [query]. *)
Definition conversation_event (query : string) (ev : Event) : Prop :=
  match ev with
  | EvCreate messages _ _ => conversation_of query messages
  | _ => True
  end.

(** A tool call, if [ev] is one, goes to a registered pair. *)
Definition dispatch_event (c : Client) (ev : Event) : Prop :=
  match ev with
  | EvCallTool session name _ _ => registered c (session, name)
  | _ => True
  end.

(** The sessions [list_tools()] was called on, oldest first. *)
Fixpoint listed (evs : list Event) : list Session :=
  match evs with
  | [] => []
  | EvListTools s _ :: rest => s :: listed rest
  | _ :: rest => listed rest
  end.

(** What [process_query] may do: list tools, ask the model, call
    tools, print. *)
Definition query_event (ev : Event) : Prop :=
  match ev with
  | EvListTools _ _ | EvCreate _ _ _ | EvCallTool _ _ _ _ | EvPrint _ => True
  | _ => False
  end.

(** The [sessions] dictionary of a client that connected the servers
    [adv], in order, starting at index [i]. *)
Fixpoint sessions_from (i : nat) (adv : list (Session * list Tool)) : list (string * Session) :=
  match adv with
  | [] => []
  | (session, _) :: rest => (server_id i, session) :: sessions_from (S i) rest
  end.

(** The catalog for the servers [adv], in order, starting at index [i]. *)
Fixpoint catalog_from (i : nat) (adv : list (Session * list Tool)) : list ToolSpec :=
  match adv with
  | [] => []
  | (_, tools) :: rest => map (tool_spec (server_id i)) tools ++ catalog_from (S i) rest
  end.

(** ** How a query ends and when a pass goes through *)





(** The arguments of the request are accepted by [json.loads]. *)
Definition parses {W} (env : Env W) (tool_call : ToolCall) : Prop :=
  exists args, json_loads env (call_arguments tool_call) = inr args.

(** If the event is a tool call, the call returned a result object. *)
Definition returned (ev : Event) : Prop :=
  match ev with
  | EvCallTool _ _ _ r => exists content isError, r = inr (CallToolResult content isError)
  | _ => True
  end.


(** * The tool servers of mcp-server *)

(** ** Python operations on JSON values

    The servers work on what [response.json()] returns, with the
    dynamic operations of Python: subscripts, [in], [.get], truth
    tests, iteration, slices and [str()]. *)

Module Py.

(** An exception object of a library (httpx, requests, json): its
    [str()] and what [isinstance] says of it. *)
Record LibExc := {
  lib_text : string;
  lib_is_Exception : bool;
  lib_is_RequestException : bool;
  lib_is_JSONDecodeError : bool
}.

(** What is raised on the server side.  The texts of [IndexError],
    [TypeError] and [AttributeError] depend on the interpreter and are
    left out. *)
Inductive Exc :=
| ValueError (msg : string)
| KeyError (key : JSON)
| IndexError
| TypeError
| AttributeError
| RequestException (msg : string)
| Library (e : LibExc).

(** [isinstance(e, Exception)]. *)
Definition is_Exception (e : Exc) : bool :=
  match e with
  | Library l => lib_is_Exception l
  | _ => true
  end.

(** [isinstance(e, requests.exceptions.RequestException)]. *)
Definition is_RequestException (e : Exc) : bool :=
  match e with
  | RequestException _ => true
  | Library l => lib_is_RequestException l
  | _ => false
  end.

(** [isinstance(e, json.JSONDecodeError)]. *)
Definition is_JSONDecodeError (e : Exc) : bool :=
  match e with
  | Library l => lib_is_JSONDecodeError l
  | _ => false
  end.

(** Pure code that may raise. *)
Definition ebind {A B} (m : Exc + A) (k : A -> Exc + B) : Exc + B :=
  match m with
  | inl e => inl e
  | inr a => k a
  end.

Notation "'let?' x := m 'in' k" := (ebind m (fun x => k))
  (at level 10, x name, m at level 100, k at level 200).

(** A list comprehension over a function that may raise: the first
    failure ends it. *)
Fixpoint emap {A B} (f : A -> Exc + B) (l : list A) : Exc + list B :=
  match l with
  | [] => inr []
  | x :: rest =>
      let? y := f x in
      let? ys := emap f rest in
      inr (y :: ys)
  end.

(** [bool(v)]: a float is held as its [repr]. *)
Definition truthy (v : JSON) : bool :=
  match v with
  | JNull => false
  | JBool b => b
  | JInt z => negb (Z.eqb z 0)
  | JFloat r => negb (String.eqb r "0.0" || String.eqb r "-0.0")
  | JStr s => negb (String.eqb s "")
  | JArr items => match items with [] => false | _ => true end
  | JObj members => match members with [] => false | _ => true end
  end.

(** The value of a key of a dictionary. *)
Fixpoint obj_get (k : string) (members : list (string * JSON)) : option JSON :=
  match members with
  | [] => None
  | (k', v) :: rest => if String.eqb k k' then Some v else obj_get k rest
  end.

(** [v[k]] for a string [k]. *)
Definition getitem (v : JSON) (k : string) : Exc + JSON :=
  match v with
  | JObj members =>
      match obj_get k members with
      | Some x => inr x
      | None => inl (KeyError (JStr k))
      end
  | _ => inl TypeError
  end.

(** The characters of a string: the bytes of one UTF-8 code point
    each. *)
Definition is_continuation (a : ascii) : bool :=
  (128 <=? nat_of_ascii a)%nat && (nat_of_ascii a <? 192)%nat.

Definition continues (c : string) : bool :=
  match c with
  | String b _ => is_continuation b
  | EmptyString => false
  end.

Fixpoint split_chars (s : string) : list string :=
  match s with
  | EmptyString => []
  | String a rest =>
      match split_chars rest with
      | c :: cs => if continues c then String a c :: cs else String a "" :: c :: cs
      | [] => [String a ""]
      end
  end.

(** [v[0]]. *)
Definition getitem0 (v : JSON) : Exc + JSON :=
  match v with
  | JArr (x :: _) => inr x
  | JArr [] => inl IndexError
  | JStr s =>
      match split_chars s with
      | c :: _ => inr (JStr c)
      | [] => inl IndexError
      end
  | JObj _ => inl (KeyError (JInt 0))
  | _ => inl TypeError
  end.

(** [x == k] for a string [k]. *)
Definition eq_str (x : JSON) (k : string) : bool :=
  match x with
  | JStr s => String.eqb s k
  | _ => false
  end.

(** [k in v] for a string [k]. *)
Definition contains (k : string) (v : JSON) : Exc + bool :=
  match v with
  | JObj members => inr (match obj_get k members with Some _ => true | None => false end)
  | JArr items => inr (existsb (fun x => eq_str x k) items)
  | JStr s => inr (match String.index 0 k s with Some _ => true | None => false end)
  | _ => inl TypeError
  end.

(** [v.get(k, default)]: only dictionaries have the method. *)
Definition dict_get (v : JSON) (k : string) (default : JSON) : Exc + JSON :=
  match v with
  | JObj members =>
      match obj_get k members with
      | Some x => inr x
      | None => inr default
      end
  | _ => inl AttributeError
  end.

(** [for x in v]. *)
Definition iterate (v : JSON) : Exc + list JSON :=
  match v with
  | JArr items => inr items
  | JObj members => inr (map (fun kv => JStr (fst kv)) members)
  | JStr s => inr (map JStr (split_chars s))
  | _ => inl TypeError
  end.

(** [v[:5]]; what slicing a dictionary raises depends on the
    interpreter and is a parameter. *)
Definition slice5 (dict_slice_error : Exc) (v : JSON) : Exc + JSON :=
  match v with
  | JArr items => inr (JArr (take 5 items))
  | JStr s => inr (JStr (String.concat "" (take 5 (split_chars s))))
  | JObj _ => inl dict_slice_error
  | _ => inl TypeError
  end.

(** [str(z)] for an integer. *)
Definition str_Z (z : Z) : string := NilEmpty.string_of_int (Z.to_int z).

(** [str(v)], as an f-string renders a value; the [repr] of a list or
    a dictionary is a parameter. *)
Definition str (repr_container : JSON -> string) (v : JSON) : string :=
  match v with
  | JNull => "None"
  | JBool true => "True"
  | JBool false => "False"
  | JInt z => str_Z z
  | JFloat r => r
  | JStr s => s
  | JArr _ | JObj _ => repr_container v
  end.

(** [text.split("\n")]: the lines of a text. *)
Fixpoint split_lines (text : string) : list string :=
  match text with
  | EmptyString => [""]
  | String c rest =>
      if Ascii.eqb c "010"%char then "" :: split_lines rest
      else match split_lines rest with
           | line :: more => String c line :: more
           | [] => [String c ""]
           end
  end.

(** ** Calls to the outside and the monad of the tool functions *)

Inductive Call :=
| ClientOpen (r : option Exc)
| ClientGet (url : JSON) (headers : list (string * string)) (timeout : JSON) (r : Exc + JSON)
| ClientClose (r : option Exc)
| RequestsGet (url : string) (params : list (string * string)) (timeout : JSON)
              (r : Exc + JSON).

Record Net (World : Type) := {
  (** entering and leaving [httpx.AsyncClient()] *)
  client_open : World -> option Exc * World;
  client_close : World -> option Exc * World;
  (** [client.get(url, headers, timeout)], [raise_for_status()], [json()] *)
  client_get : JSON -> list (string * string) -> JSON -> World -> (Exc + JSON) * World;
  (** [requests.get(url, params, timeout)], [raise_for_status()], [json()] *)
  requests_get : string -> list (string * string) -> JSON -> World -> (Exc + JSON) * World;
  os_getenv : string -> World -> option string;
  repr_container : JSON -> string;
  dict_slice_error : Exc
}.

Arguments client_open {World}.
Arguments client_close {World}.
Arguments client_get {World}.
Arguments requests_get {World}.
Arguments os_getenv {World}.
Arguments repr_container {World}.
Arguments dict_slice_error {World}.

(** The world outside and the calls made so far, oldest first. *)
Record State (World : Type) := { outside : World; calls : list Call }.

Arguments outside {World}.
Arguments calls {World}.

Definition T (World A : Type) := State World -> (Exc + A) * State World.

Definition pure {W A} (a : A) : T W A := fun s => (inr a, s).

Definition throw {W A} (e : Exc) : T W A := fun s => (inl e, s).

Definition lift {W A} (m : Exc + A) : T W A := fun s => (m, s).

Definition tbind {W A B} (m : T W A) (k : A -> T W B) : T W B :=
  fun s =>
    match m s with
    | (inr a, s') => k a s'
    | (inl e, s') => (inl e, s')
    end.

Notation "'let!' x := m 'in' k" := (tbind m (fun x => k))
  (at level 10, x name, m at level 100, k at level 200).

(** A call whose result may be an exception. *)
Definition call {W A} (f : W -> (Exc + A) * W) (ev : Exc + A -> Call) : T W A :=
  fun s =>
    let (r, w) := f (outside s) in
    (r, {| outside := w; calls := calls s ++ [ev r] |}).

(** [async with cm: body]: the context manager is entered, the body
    runs, and the manager is left whatever the body did; an exception
    of leaving replaces the outcome of the body. *)
Definition async_with {W A} (enter leave : W -> option Exc * W)
    (ev_enter ev_leave : option Exc -> Call) (body : T W A) : T W A :=
  fun s =>
    let (x, w) := enter (outside s) in
    let s1 := {| outside := w; calls := calls s ++ [ev_enter x] |} in
    match x with
    | Some e => (inl e, s1)
    | None =>
        let (r, s2) := body s1 in
        let (y, w') := leave (outside s2) in
        let s3 := {| outside := w'; calls := calls s2 ++ [ev_leave y] |} in
        match y with
        | Some e => (inl e, s3)
        | None => (r, s3)
        end
    end.

(** [try: body except Exception: handler]. *)
Definition try_Exception {W A} (body : T W A) (handler : T W A) : T W A :=
  fun s =>
    match body s with
    | (inl e, s') => if is_Exception e then handler s' else (inl e, s')
    | r => r
    end.

(** The calls a run added. *)
Definition new_calls {W} (s s' : State W) : list Call :=
  drop (length (calls s)) (calls s').

(** The URLs of the GETs of the httpx client, oldest first. *)
Fixpoint gets (cs : list Call) : list JSON :=
  match cs with
  | [] => []
  | ClientGet url _ _ _ :: rest => url :: gets rest
  | _ :: rest => gets rest
  end.

End Py.

(** ** weather.py *)

Module WeatherServer.

Import Py.

Section Weather.

Context {World : Type} (net : Net World).

Definition NWS_API_BASE : string := "https://api.weather.gov".
Definition USER_AGENT : string := "weather-app/1.0".

Definition nws_headers : list (string * string) :=
  [("User-Agent", USER_AGENT); ("Accept", "application/geo+json")].

(** Lines 11-23; [None] is [JNull]. *)
Definition make_nws_request (url : JSON) : T World JSON :=
  let headers := nws_headers in
  async_with (client_open net) (client_close net) ClientOpen ClientClose
    (try_Exception
       (call (client_get net url headers (JFloat "30.0"))
             (ClientGet url headers (JFloat "30.0")))
       (pure JNull)).

Definition indent12 : string := "            ".
Definition indent20 : string := "                    ".

(** Lines 26-35. *)
Definition format_alert (feature : JSON) : Exc + string :=
  let? props := getitem feature "properties" in
  let? event := dict_get props "event" (JStr "未知") in
  let? areaDesc := dict_get props "areaDesc" (JStr "未知") in
  let? severity := dict_get props "severity" (JStr "未知") in
  let? description := dict_get props "description" (JStr "无描述") in
  let? instruction := dict_get props "instruction" (JStr "无具体指引") in
  let show := str (repr_container net) in
  inr ("
" +:+ indent12 +:+ "事件: " +:+ show event +:+ "
" +:+ indent12 +:+ "地区: " +:+ show areaDesc +:+ "
" +:+ indent12 +:+ "严重程度: " +:+ show severity +:+ "
" +:+ indent12 +:+ "描述: " +:+ show description +:+ "
" +:+ indent12 +:+ "指引: " +:+ show instruction +:+ "
" +:+ indent12).

Definition separator : string := "
---
".

(** A feature [format_alert] can render: a dictionary whose
    ["properties"] is a dictionary. *)
Definition alert_feature (feature : JSON) : Prop :=
  exists members props,
    feature = JObj members /\ obj_get "properties" members = Some (JObj props).

(** The fields of an alert and what stands for a missing one. *)
Definition alert_fields : list (string * string) :=
  [("event", "未知"); ("areaDesc", "未知"); ("severity", "未知");
   ("description", "无描述"); ("instruction", "无具体指引")].

(** The fields of an alert and the labels they are printed under. *)
Definition alert_labels : list (string * string) :=
  [("event", "事件"); ("areaDesc", "地区"); ("severity", "严重程度");
   ("description", "描述"); ("instruction", "指引")].

Definition no_alert_data : string := "无法获取警报或未找到警报信息。".
Definition no_active_alerts : string := "该州当前没有活跃的天气警报。".

(** Lines 46-51, on the answer of the request. *)
Definition alerts_of (data : JSON) : Exc + string :=
  let? missing :=
    (if truthy data then
       let? found := contains "features" data in inr (negb found)
     else inr true) in
  if (missing : bool) then inr no_alert_data
  else
    let? features := getitem data "features" in
    if negb (truthy features) then inr no_active_alerts
    else
      let? features := getitem data "features" in
      let? items := iterate features in
      let? alerts := emap format_alert items in
      inr (String.concat separator alerts).

(** Lines 39-51. *)
Definition get_alerts (state : string) : T World string :=
  let url := NWS_API_BASE +:+ "/alerts/active/area/" +:+ state in
  let! data := make_nws_request (JStr url) in
  lift (alerts_of data).

(** Lines 75-80: the text of one period. *)
Definition format_period (period : JSON) : Exc + string :=
  let? name := getitem period "name" in
  let? temperature := getitem period "temperature" in
  let? temperatureUnit := getitem period "temperatureUnit" in
  let? windSpeed := getitem period "windSpeed" in
  let? windDirection := getitem period "windDirection" in
  let? detailedForecast := getitem period "detailedForecast" in
  let show := str (repr_container net) in
  inr ("
" +:+ indent20 +:+ show name +:+ ":
" +:+ indent20 +:+ "温度: " +:+ show temperature +:+ "°" +:+ show temperatureUnit +:+ "
" +:+ indent20 +:+ "风速: " +:+ show windSpeed +:+ " " +:+ show windDirection +:+ "
" +:+ indent20 +:+ "天气: " +:+ show detailedForecast +:+ "
" +:+ indent20).

(** Lines 72-82, on the answer of the second request. *)
Definition forecast_of (forecast_data : JSON) : Exc + string :=
  let? properties := getitem forecast_data "properties" in
  let? periods := getitem properties "periods" in
  let? first5 := slice5 (dict_slice_error net) periods in
  let? items := iterate first5 in
  let? forecasts := emap format_period items in
  inr (String.concat separator forecasts).

Definition no_points_data : string := "无法获取该位置的天气预报数据。".
Definition no_forecast_data : string := "无法获取详细的天气预报信息。".

(** Lines 55-82; [latitude] and [longitude] are floats, held as their
    [repr]. *)
Definition get_forecast (latitude longitude : string) : T World string :=
  let points_url := NWS_API_BASE +:+ "/points/" +:+ latitude +:+ "," +:+ longitude in
  let! points_data := make_nws_request (JStr points_url) in
  if negb (truthy points_data) then pure no_points_data
  else
    let! forecast_url :=
      lift (let? properties := getitem points_data "properties" in
            getitem properties "forecast") in
    let! forecast_data := make_nws_request forecast_url in
    if negb (truthy forecast_data) then pure no_forecast_data
    else lift (forecast_of forecast_data).

End Weather.

End WeatherServer.

(** ** amap_server.py *)

Module AmapServer.

Import Py.

Section Amap.

Context {World : Type} (net : Net World).

Definition amap_url : string := "https://restapi.amap.com/v3/weather/weatherInfo".

Definition cast_keys : list string :=
  ["date"; "dayweather"; "nightweather"; "daytemp"; "nighttemp";
   "daywind"; "nightwind"; "daypower"; "nightpower"].

(** Lines 70-80: the dictionary built for one cast; [cast.get(k)] is
    [None] for a missing key. *)
Definition project_cast (cast : JSON) : Exc + JSON :=
  let? values := emap (fun k => dict_get cast k JNull) cast_keys in
  inr (JObj (zip cast_keys values)).

(** Lines 61-81, on the decoded answer. *)
Definition casts_of (data : JSON) : Exc + JSON :=
  let? status := dict_get data "status" JNull in
  if negb (eq_str status "1") then
    let? info := dict_get data "info" (JStr "未知错误") in
    inl (ValueError ("API错误:" +:+ str (repr_container net) info))
  else
    let? forecasts := dict_get data "forecasts" JNull in
    if negb (truthy forecasts) then inl (ValueError "未获取到天气预报数据")
    else
      let? forecasts := getitem data "forecasts" in
      let? first := getitem0 forecasts in
      let? casts := getitem first "casts" in
      let? items := iterate casts in
      let? result := emap project_cast items in
      inr (JArr result).

(** Lines 82-85: the two [except] clauses, in their order. *)
Definition translate (e : Exc) : Exc :=
  match e with
  | RequestException msg => RequestException ("网络请求失败:" +:+ msg)
  | Library l =>
      if lib_is_RequestException l then RequestException ("网络请求失败:" +:+ lib_text l)
      else if lib_is_JSONDecodeError l then ValueError ("API响应格式错误:" +:+ lib_text l)
      else e
  | _ => e
  end.

(** [not api_key]: unset or empty. *)
Definition falsy_text (v : option string) : bool :=
  match v with
  | Some (String _ _) => false
  | _ => true
  end.

(** Lines 12-85. *)
Definition get_weather (city : string) : T World JSON :=
  fun s =>
    if String.eqb city "" then (inl (ValueError "city参数不能为空"), s)
    else
      let api_key := os_getenv net "AMAP_MAPS_API_KEY" (outside s) in
      if falsy_text api_key then
        (inl (ValueError "未找到高德地图API密钥，请检查环境变量AMAP_MAPS_API_KEY"), s)
      else
        let key := match api_key with Some k => k | None => "" end in
        let params := [("key", key); ("city", city);
                       ("extensions", "all"); ("output", "json")] in
        match (let! data := call (requests_get net amap_url params (JInt 10))
                                 (RequestsGet amap_url params (JInt 10)) in
               lift (casts_of data)) s with
        | (inl e, s') => (inl (translate e), s')
        | r => r
        end.

End Amap.

End AmapServer.


(** ** Example networks for the servers *)

Module ServerExamples.

Import Py.

(** A network that answers every GET by [respond], with a client that
    opens (unless [open_error] is given) and closes normally, and with
    the API key [key]. *)
Definition network (open_error : option Exc) (key : option string)
    (respond : JSON -> Exc + JSON) : Net unit :=
  {| client_open := fun w => (open_error, w);
     client_close := fun w => (None, w);
     client_get := fun url _ _ w => (respond url, w);
     requests_get := fun _ _ _ w => (respond JNull, w);
     os_getenv := fun _ _ => key;
     repr_container := fun _ => "[...]";
     dict_slice_error := TypeError |}.

Definition idle : State unit := {| outside := tt; calls := [] |}.

Definition timed_out : Exc :=
  Library {| lib_text := "timed out"; lib_is_Exception := true;
             lib_is_RequestException := true; lib_is_JSONDecodeError := false |}.

Definition bad_body : LibExc :=
  {| lib_text := "Expecting value: line 1 column 1 (char 0)"; lib_is_Exception := true;
     lib_is_RequestException := true; lib_is_JSONDecodeError := true |}.

Definition flood : JSON :=
  JObj [("properties", JObj [("event", JStr "Flood Warning"); ("severity", JStr "Severe")])].

Definition period (name : string) : JSON :=
  JObj [("name", JStr name); ("temperature", JInt 61); ("temperatureUnit", JStr "F");
        ("windSpeed", JStr "5 mph"); ("windDirection", JStr "NW");
        ("detailedForecast", JStr "Sunny")].

Definition six_periods : list JSON :=
  [period "Today"; period "Tonight"; period "Monday"; period "Monday Night";
   period "Tuesday"; JNull].

Definition forecast_answer (periods : list JSON) : JSON :=
  JObj [("properties", JObj [("periods", JArr periods)])].

Definition amap_answer (forecasts : list JSON) : JSON :=
  JObj [("status", JStr "1"); ("forecasts", JArr forecasts)].

Definition fuzhou : JSON :=
  JObj [("city", JStr "福州");
        ("casts", JArr [JObj [("date", JStr "2024-05-01"); ("dayweather", JStr "晴");
                              ("week", JStr "3")]])].

Definition fuzhou_run : (Exc + JSON) * State unit :=
  AmapServer.get_weather (network None (Some "k") (fun _ => inr (amap_answer [fuzhou; JNull])))
                         "福州" idle.

End ServerExamples.

(** * Properties *)

Section Properties.

Context {World : Type} (env : Env World).

Implicit Types (s : St World) (tc : ToolCall) (ls : @LoopState World).

Lemma bind_ret {A B} (m : M World A) (k : A -> M World B) s a s' :
  m s = (Ret a, s') -> bind m k s = k a s'.
Proof. intros H. unfold bind. now rewrite H. Qed.

Lemma bind_raise {A B} (m : M World A) (k : A -> M World B) s e s' :
  m s = (Raise e, s') -> bind m k s = (Raise e, s').
Proof. intros H. unfold bind. now rewrite H. Qed.

Lemma bind_out_of_fuel {A B} (m : M World A) (k : A -> M World B) s s' :
  m s = (OutOfFuel, s') -> bind m k s = (OutOfFuel, s').
Proof. intros H. unfold bind. now rewrite H. Qed.

Lemma query_start_intro query s tools s1 message s2 :
  collect_tools env (sessions (self s)) [] s = (Ret tools, s1) ->
  create_message env [UserMessage query] tools s1 = (Ret message, s2) ->
  query_start env query s tools
    {| ls_message := message; ls_messages := [UserMessage query];
       ls_final_text := [content_or_empty message]; ls_state := s2 |}.
Proof. intros Hc Hm. exists s1. auto. Qed.

(** The loop and [process_query] in terms of loop states. *)
Lemma process_query_from_start fuel query s tools ls :
  query_start env query s tools ls ->
  process_query env fuel query s = while_from env fuel tools ls.
Proof.
  intros (s1 & Hc & Hm & Hmsgs & Hft).
  unfold process_query, while_from.
  rewrite (bind_ret _ _ s (self s) s) by reflexivity.
  rewrite (bind_ret _ _ _ _ _ Hc).
  rewrite (bind_ret _ _ _ _ _ Hm).
  now rewrite Hmsgs, Hft.
Qed.

Lemma while_from_pass fuel tools ls ls' :
  pass env tools ls ls' ->
  while_from env (S fuel) tools ls = while_from env fuel tools ls'.
Proof.
  intros [ls0 tool_call rest message messages final_text s' Ht Hb].
  unfold while_from. simpl. rewrite Ht.
  now rewrite (bind_ret _ _ _ _ _ Hb).
Qed.

Lemma while_from_passes n fuel tools ls ls' :
  nsteps (pass env tools) n ls ls' ->
  while_from env (n + fuel) tools ls = while_from env fuel tools ls'.
Proof.
  induction 1 as [|n x y z Hxy _ IH]; [reflexivity|].
  simpl. rewrite (while_from_pass _ _ _ _ Hxy). exact IH.
Qed.

(** When the for-loop raises, so does the pass around it. *)
Lemma while_from_for_raises fuel tools ls pre tc post e s' :
  msg_tool_calls (ls_message ls) = Some (pre ++ tc :: post) ->
  for_tool_calls env (pre ++ tc :: post) (ls_messages ls) (ls_final_text ls) (ls_state ls)
    = (Raise e, s') ->
  while_from env (S fuel) tools ls = (Raise e, s').
Proof.
  intros Ht Hf. unfold while_from. simpl. rewrite Ht.
  destruct (pre ++ tc :: post) as [|tc0 l] eqn:E.
  - destruct pre; discriminate.
  - unfold while_body.
    rewrite (bind_raise _ _ _ _ _ (bind_raise _ _ _ _ _ Hf)). reflexivity.
Qed.

Lemma for_tool_calls_app pre post messages final_text s messages' final_text' s' :
  for_tool_calls env pre messages final_text s = (Ret (messages', final_text'), s') ->
  for_tool_calls env (pre ++ post) messages final_text s
    = for_tool_calls env post messages' final_text' s'.
Proof.
  revert messages final_text s.
  induction pre as [|tc pre IH]; intros messages final_text s H; simpl in *.
  - now inversion H.
  - unfold bind in *.
    destruct (process_tool_call env tc messages final_text s) as [[[m f]|e|] s1];
      try discriminate.
    now apply IH.
Qed.

(** *** How the trace grows *)

Lemma new_events_app s s' evs :
  trace s' = trace s ++ evs -> new_events s s' = evs.
Proof. intros H. unfold new_events. rewrite H. apply drop_app_length. Qed.

Lemma extends_refl P s : extends P s s.
Proof. split; [reflexivity|]. exists []. now rewrite app_nil_r. Qed.

Lemma extends_trans P s1 s2 s3 :
  extends P s1 s2 -> extends P s2 s3 -> extends P s1 s3.
Proof.
  intros [H1 (e1 & T1 & F1)] [H2 (e2 & T2 & F2)]. split; [congruence|].
  exists (e1 ++ e2). rewrite T2, T1, app_assoc. split; [reflexivity|].
  now apply Forall_app.
Qed.

Lemma extends_weaken (P Q : Event -> Prop) s s' :
  (forall ev, P ev -> Q ev) -> extends P s s' -> extends Q s s'.
Proof.
  intros HPQ [H1 (e1 & T1 & F1)]. split; [exact H1|].
  exists e1. split; [exact T1|]. eapply Forall_impl; eauto.
Qed.

Lemma extends_new_events P s s' :
  extends P s s' -> Forall P (new_events s s').
Proof. intros [_ (evs & T & F)]. now rewrite (new_events_app _ _ _ T). Qed.

Lemma bind_extends {A B} P (m : M World A) (k : A -> M World B) s o s' :
  (forall o1 s1, m s = (o1, s1) -> extends P s s1) ->
  (forall a s1 o2 s2, k a s1 = (o2, s2) -> extends P s1 s2) ->
  bind m k s = (o, s') -> extends P s s'.
Proof.
  intros Hm Hk. unfold bind.
  destruct (m s) as [[a|e|] s1] eqn:E; intros H.
  - eapply extends_trans; [eapply Hm; reflexivity | eapply Hk; exact H].
  - inversion H; subst. eapply Hm; reflexivity.
  - inversion H; subst. eapply Hm; reflexivity.
Qed.

Lemma await_extends {A} (P : Event -> Prop) (f : World -> (PyExc + A) * World) ev s o s' :
  (forall r, P (ev r)) ->
  await f ev s = (o, s') -> extends P s s'.
Proof.
  intros HP. unfold await. destruct (f (world s)) as [r w].
  intros H. assert (s' = {| world := w; trace := trace s ++ [ev r]; self := self s |})
    as -> by (destruct r; now inversion H).
  split; [reflexivity|]. exists [ev r]. split; [reflexivity|].
  constructor; [apply HP | constructor].
Qed.

Lemma print_extends (P : Event -> Prop) text s o s' :
  P (EvPrint text) ->
  print text s = (o, s') -> extends P s s'.
Proof.
  intros HP H. unfold print, log in H. inversion H; subst.
  split; [reflexivity|]. exists [EvPrint text]. split; [reflexivity|].
  constructor; [exact HP | constructor].
Qed.

Lemma collect_tools_extends items acc s o s' :
  collect_tools env items acc s = (o, s') ->
  extends (fun ev => is_list_tools ev = true) s s'.
Proof.
  revert acc s o s'.
  induction items as [|[sid session] items IH]; intros acc s o s'; simpl.
  - intros H. inversion H. apply extends_refl.
  - apply bind_extends.
    + intros o1 s1. now apply await_extends.
    + intros a s1 o2 s2. apply IH.
Qed.

Lemma collect_tools_count items acc s :
  exists evs,
    trace (snd (collect_tools env items acc s)) = trace s ++ evs /\
    length evs <= length items.
Proof.
  revert acc s. induction items as [|[sid session] items IH]; intros acc s; simpl.
  - exists []. simpl. rewrite app_nil_r. auto.
  - unfold bind, await.
    destruct (list_tools env session (world s)) as [[e|tools] w].
    + exists [EvListTools session (inl e)]. simpl. split; [reflexivity | lia].
    + match goal with
      | |- context [collect_tools env items ?a ?st] =>
          destruct (IH a st) as (evs & T & L)
      end.
      exists (EvListTools session (inr tools) :: evs). split.
      * rewrite T. simpl. now rewrite <- app_assoc.
      * simpl. lia.
Qed.

Lemma create_message_spec messages tools s o s' :
  create_message env messages tools s = (o, s') ->
  self s' = self s /\
  exists r, trace s' = trace s ++ [EvCreate messages tools r] /\
            match o with
            | Ret message => exists rest, r = inr (message :: rest)
            | Raise _ => True
            | OutOfFuel => False
            end.
Proof.
  unfold create_message.
  rewrite (bind_ret _ _ s (self s) s) by reflexivity.
  unfold bind, await.
  destruct (chat_create env (model_name (self s)) messages tools (world s)) as [[e|choices] w].
  - intros H. inversion H; subst. simpl. eauto.
  - destruct choices as [|message rest]; simpl; intros H; inversion H; subst; simpl;
      (split; [reflexivity|]); eexists; (split; [reflexivity|]); eauto.
Qed.

Lemma create_message_extends messages tools s o s' :
  create_message env messages tools s = (o, s') ->
  extends (loop_event tools) s s'.
Proof.
  intros H. destruct (create_message_spec _ _ _ _ _ H) as [Hs (r & T & _)].
  split; [exact Hs|]. exists [EvCreate messages tools r]. split; [exact T|].
  constructor; [reflexivity | constructor].
Qed.

Lemma call_tool_guarded_extends session original args s o s' :
  call_tool_guarded env session original args s = (o, s') ->
  extends tool_event s s'.
Proof.
  unfold call_tool_guarded, try_except.
  destruct (await _ _ s) as [[a|e|] s1] eqn:E; intros H.
  - inversion H; subst. eapply await_extends; [|exact E]. now intros r.
  - eapply extends_trans; [eapply await_extends; [|exact E]; now intros r|].
    destruct (is_Exception (exc_class e)).
    + revert H. apply bind_extends.
      * intros o1 s2. now apply print_extends.
      * intros a s2 o2 s3 H2. inversion H2. apply extends_refl.
    + inversion H; subst. apply extends_refl.
  - inversion H; subst. eapply await_extends; [|exact E]. now intros r.
Qed.

Lemma result_content_state result s o s' :
  result_content (World := World) result s = (o, s') -> s' = s.
Proof. destruct result; simpl; intros H; now inversion H. Qed.

Lemma process_tool_call_extends tc messages final_text s o s' :
  process_tool_call env tc messages final_text s = (o, s') ->
  extends tool_event s s'.
Proof.
  unfold process_tool_call.
  rewrite (bind_ret _ _ s (self s) s) by reflexivity.
  destruct (tool_mapping (self s) !! call_name tc) as [[session original]|].
  - apply bind_extends.
    { intros o1 s1. unfold loads.
      destruct (json_loads env (call_arguments tc)); intros H; inversion H;
        apply extends_refl. }
    intros args s1 o2 s2. apply bind_extends.
    { intros o1 s3. apply call_tool_guarded_extends. }
    intros result s3 o3 s4. apply bind_extends.
    { intros o1 s5 H. rewrite (result_content_state _ _ _ _ H). apply extends_refl. }
    intros c s5 o4 s6. apply bind_extends.
    { intros o1 s7 H. rewrite (result_content_state _ _ _ _ H). apply extends_refl. }
    intros c' s7 o5 s8 H. inversion H. apply extends_refl.
  - apply bind_extends.
    + intros o1 s1. now apply print_extends.
    + intros a s1 o2 s2 H. inversion H. apply extends_refl.
Qed.

Lemma for_tool_calls_extends tcs messages final_text s o s' :
  for_tool_calls env tcs messages final_text s = (o, s') ->
  extends tool_event s s'.
Proof.
  revert messages final_text s o s'.
  induction tcs as [|tc tcs IH]; intros messages final_text s o s'; simpl.
  - intros H. inversion H. apply extends_refl.
  - apply bind_extends.
    + intros o1 s1. apply process_tool_call_extends.
    + intros a s1 o2 s2. apply IH.
Qed.

Lemma tool_event_loop_event tools ev : tool_event ev -> loop_event tools ev.
Proof. now destruct ev. Qed.

Lemma while_body_extends tools tcs messages final_text s o s' :
  while_body env tcs messages final_text tools s = (o, s') ->
  extends (loop_event tools) s s'.
Proof.
  unfold while_body. apply bind_extends.
  - intros o1 s1 H. eapply extends_weaken; [apply tool_event_loop_event|].
    eapply for_tool_calls_extends; exact H.
  - intros r s1 o2 s2. apply bind_extends.
    + intros o1 s3. apply create_message_extends.
    + intros a s3 o3 s4 H. inversion H. apply extends_refl.
Qed.

Lemma while_tool_calls_extends fuel tools message messages final_text s o s' :
  while_tool_calls env fuel message messages final_text tools s = (o, s') ->
  extends (loop_event tools) s s'.
Proof.
  revert message messages final_text s o s'.
  induction fuel as [|fuel IH]; intros message messages final_text s o s'; simpl;
    destruct (msg_tool_calls message) as [[|tc rest]|];
    try (intros H; inversion H; apply extends_refl).
  apply bind_extends.
  - intros o1 s1. apply while_body_extends.
  - intros r s1 o2 s2. apply IH.
Qed.

(** *** Requests for a tool that is not in [tool_mapping] *)

(** C3 (as the code has it): for a request whose name is not a key of
    [tool_mapping], nothing outside is invoked (the world is untouched
    and the only event is the printed note), the note is appended to
    [final_text], [messages] is left as it was, and the for-loop goes
    on with the next request. *)
Theorem tool_not_found_noted_in_transcript_only tc rest messages final_text s :
  tool_mapping (self s) !! call_name tc = None ->
  let note := not_found_text (call_name tc) in
  let s' := {| world := world s; trace := trace s ++ [EvPrint note]; self := self s |} in
  process_tool_call env tc messages final_text s
    = (Ret (messages, final_text ++ [note]), s') /\
  filter is_call_tool (new_events s s') = [] /\
  for_tool_calls env (tc :: rest) messages final_text s
    = for_tool_calls env rest messages (final_text ++ [note]) s'.
Proof.
  intros Hnone note s'.
  assert (Hp : process_tool_call env tc messages final_text s
               = (Ret (messages, final_text ++ [note]), s')).
  { unfold process_tool_call.
    rewrite (bind_ret _ _ s (self s) s) by reflexivity.
    now rewrite Hnone. }
  split; [exact Hp|]. split.
  - unfold new_events, s'. simpl. now rewrite drop_app_length.
  - simpl. now rewrite (bind_ret _ _ _ _ _ Hp).
Qed.

(** *** Arguments that are not valid JSON *)

Lemma process_tool_call_bad_json tc messages final_text s session original e :
  tool_mapping (self s) !! call_name tc = Some (session, original) ->
  json_loads env (call_arguments tc) = inl e ->
  process_tool_call env tc messages final_text s = (Raise e, s).
Proof.
  intros Hr Hj. unfold process_tool_call.
  rewrite (bind_ret _ _ s (self s) s) by reflexivity.
  rewrite Hr. apply bind_raise. unfold loads. now rewrite Hj.
Qed.

(** C10: a request that resolves in [tool_mapping] but whose argument
    string [json.loads] rejects makes the loop body raise the parser's
    exception at once: no tool is called, nothing is recorded for the
    request, and the exception leaves [process_query], whatever the
    turn (after [n] completed passes) and the position of the request
    in the response (after the requests [pre]). *)
Theorem bad_json_arguments_abort_query n fuel query s tools ls0 ls
    pre tc post messages final_text s' session original e :
  query_start env query s tools ls0 ->
  nsteps (pass env tools) n ls0 ls ->
  msg_tool_calls (ls_message ls) = Some (pre ++ tc :: post) ->
  for_tool_calls env pre (ls_messages ls) (ls_final_text ls) (ls_state ls)
    = (Ret (messages, final_text), s') ->
  tool_mapping (self s') !! call_name tc = Some (session, original) ->
  json_loads env (call_arguments tc) = inl e ->
  process_tool_call env tc messages final_text s' = (Raise e, s') /\
  process_query env (n + S fuel) query s = (Raise e, s').
Proof.
  intros Hstart Hsteps Ht Hpre Hr Hj.
  pose proof (process_tool_call_bad_json _ messages final_text _ _ _ _ Hr Hj) as Hp.
  split; [exact Hp|].
  rewrite (process_query_from_start _ _ _ _ _ Hstart).
  rewrite (while_from_passes _ _ _ _ _ Hsteps).
  apply (while_from_for_raises _ _ _ pre tc post); [exact Ht|].
  rewrite (for_tool_calls_app _ _ _ _ _ _ _ _ Hpre).
  simpl. now apply bind_raise.
Qed.

(** *** A tool call that returns *)

Lemma process_tool_call_returning_tool tc messages final_text s session original args
    content isError w :
  tool_mapping (self s) !! call_name tc = Some (session, original) ->
  json_loads env (call_arguments tc) = inr args ->
  call_tool env session original args (world s)
    = (inr (CallToolResult content isError), w) ->
  process_tool_call env tc messages final_text s
    = (Ret (messages ++
              [AssistantToolCall (call_id tc) (call_name tc) (json_dumps env args);
               ToolMessage (call_id tc) (str_content env content)],
            (final_text ++
               ["[调用工具 " +:+ call_name tc +:+ " 参数: " +:+ str_json env args +:+ "]"]) ++
               ["工具结果: " +:+ str_content env content]),
       {| world := w;
          trace := trace s ++
                   [EvCallTool session original args (inr (CallToolResult content isError))];
          self := self s |}).
Proof.
  intros Hr Hj Hc. unfold process_tool_call.
  rewrite (bind_ret _ _ s (self s) s) by reflexivity.
  rewrite Hr. unfold loads. rewrite Hj.
  unfold bind at 1. unfold ret at 1.
  unfold bind at 1. unfold call_tool_guarded, try_except, await.
  rewrite Hc. reflexivity.
Qed.


(** *** A tool call that raises *)

Lemma process_tool_call_raising_tool tc messages final_text s session original args e w :
  tool_mapping (self s) !! call_name tc = Some (session, original) ->
  json_loads env (call_arguments tc) = inr args ->
  call_tool env session original args (world s) = (inl e, w) ->
  is_Exception (exc_class e) = true ->
  process_tool_call env tc messages final_text s
    = (Raise dict_has_no_content,
       {| world := w;
          trace := trace s ++
                   [EvCallTool session original args (inl e);
                    EvPrint ("调用工具 " +:+ original +:+ " 出错：" +:+ exc_text e)];
          self := self s |}).
Proof.
  intros Hr Hj Hc He. unfold process_tool_call.
  rewrite (bind_ret _ _ s (self s) s) by reflexivity.
  rewrite Hr. unfold loads. rewrite Hj.
  unfold bind at 1. unfold ret at 1.
  unfold bind at 1. unfold call_tool_guarded, try_except, await.
  rewrite Hc. simpl. rewrite He.
  unfold bind, print, log. simpl.
  now rewrite <- app_assoc.
Qed.

(** C1 (what the code does): when the tool call of a resolved request
    raises an [Exception], the handler binds [result] to a dictionary
    and prints the error text, and the next statement, which reads
    [result.content], raises [AttributeError]; that exception leaves
    [process_query], at whatever turn and position the request is. *)
Theorem failing_tool_call_raises_attribute_error n fuel query s tools ls0 ls
    pre tc post messages final_text s' session original args e w :
  query_start env query s tools ls0 ->
  nsteps (pass env tools) n ls0 ls ->
  msg_tool_calls (ls_message ls) = Some (pre ++ tc :: post) ->
  for_tool_calls env pre (ls_messages ls) (ls_final_text ls) (ls_state ls)
    = (Ret (messages, final_text), s') ->
  tool_mapping (self s') !! call_name tc = Some (session, original) ->
  json_loads env (call_arguments tc) = inr args ->
  call_tool env session original args (world s') = (inl e, w) ->
  is_Exception (exc_class e) = true ->
  exists s'',
    process_query env (n + S fuel) query s = (Raise dict_has_no_content, s'') /\
    new_events s' s'' =
      [EvCallTool session original args (inl e);
       EvPrint ("调用工具 " +:+ original +:+ " 出错：" +:+ exc_text e)].
Proof.
  intros Hstart Hsteps Ht Hpre Hr Hj Hc He.
  pose proof (process_tool_call_raising_tool _ messages final_text _ _ _ _ _ _
                Hr Hj Hc He) as Hp.
  eexists. split.
  - rewrite (process_query_from_start _ _ _ _ _ Hstart).
    rewrite (while_from_passes _ _ _ _ _ Hsteps).
    apply (while_from_for_raises _ _ _ pre tc post); [exact Ht|].
    rewrite (for_tool_calls_app _ _ _ _ _ _ _ _ Hpre).
    simpl. apply bind_raise. exact Hp.
  - unfold new_events. simpl. now rewrite drop_app_length.
Qed.

(** *** Counting inference calls and catalogs *)

Lemma filter_none {A} (P : A -> bool) (Q : A -> Prop) (l : list A) :
  (forall x, Q x -> P x = false) -> Forall Q l -> List.filter P l = [].
Proof.
  intros HQ. induction 1 as [|x l Hx _ IH]; simpl; [reflexivity|].
  now rewrite (HQ x Hx).
Qed.

Lemma filter_all {A} (P : A -> bool) (l : list A) :
  Forall (fun x => P x = true) l -> List.filter P l = l.
Proof.
  induction 1 as [|x l Hx _ IH]; simpl; [reflexivity|].
  now rewrite Hx, IH.
Qed.

Lemma catalogs_app evs1 evs2 : catalogs (evs1 ++ evs2) = catalogs evs1 ++ catalogs evs2.
Proof.
  induction evs1 as [|ev evs1 IH]; simpl; [reflexivity|].
  destruct ev; simpl; now rewrite ?IH.
Qed.

Lemma catalogs_list_tools evs :
  Forall (fun ev => is_list_tools ev = true) evs -> catalogs evs = [].
Proof. induction 1 as [|ev evs Hev _ IH]; [reflexivity|]. now destruct ev. Qed.

Lemma catalogs_loop tools evs :
  Forall (loop_event tools) evs -> Forall (fun t => t = tools) (catalogs evs).
Proof.
  induction 1 as [|ev evs Hev _ IH]; simpl; [constructor|].
  destruct ev; simpl in *; try contradiction; auto.
Qed.

Lemma loop_event_not_list_tools tools ev : loop_event tools ev -> is_list_tools ev = false.
Proof. now destruct ev. Qed.

Lemma list_tools_not_create ev : is_list_tools ev = true -> is_create ev = false.
Proof. now destruct ev. Qed.


(** C7: when the first response of the model carries no tool-call
    request, [process_query] returns that response's content (the
    empty string when there is none) and exactly one inference call
    was made. *)
Theorem no_tool_calls_single_inference fuel query s tools s1 message s2 :
  collect_tools env (sessions (self s)) [] s = (Ret tools, s1) ->
  create_message env [UserMessage query] tools s1 = (Ret message, s2) ->
  msg_tool_calls message = None \/ msg_tool_calls message = Some [] ->
  process_query env fuel query s = (Ret (content_or_empty message), s2) /\
  length (List.filter is_create (new_events s s2)) = 1.
Proof.
  intros Hc Hm Hnone. split.
  - unfold process_query.
    rewrite (bind_ret _ _ s (self s) s) by reflexivity.
    rewrite (bind_ret _ _ _ _ _ Hc), (bind_ret _ _ _ _ _ Hm).
    destruct fuel; simpl; destruct Hnone as [-> | ->]; reflexivity.
  - destruct (collect_tools_extends _ _ _ _ _ Hc) as [_ (evs & T1 & F1)].
    destruct (create_message_spec _ _ _ _ _ Hm) as [_ (r & T2 & _)].
    rewrite (new_events_app s s2 (evs ++ [EvCreate [UserMessage query] tools r])).
    + rewrite List.filter_app.
      rewrite (filter_none is_create _ evs list_tools_not_create F1). reflexivity.
    + now rewrite T2, T1, app_assoc.
Qed.

(** *** The catalog of a query *)

(** C4 (as the code has it): [list_tools()] is called only while the
    catalog is collected at the start of [process_query], at most once
    per session, and every inference call of the query, on whatever
    turn, carries that same catalog. *)
Theorem catalog_collected_once_per_query fuel query s :
  let start := collect_tools env (sessions (self s)) [] s in
  let s' := snd (process_query env fuel query s) in
  List.filter is_list_tools (new_events s s') = new_events s (snd start) /\
  length (new_events s (snd start)) <= length (sessions (self s)) /\
  match fst start with
  | Ret tools => Forall (fun t => t = tools) (catalogs (new_events s s'))
  | _ => catalogs (new_events s s') = []
  end.
Proof.
  intros start s'. subst start s'.
  assert (Hcount : length (new_events s (snd (collect_tools env (sessions (self s)) [] s)))
                   <= length (sessions (self s))).
  { destruct (collect_tools_count (sessions (self s)) [] s) as (evs & T & L).
    now rewrite (new_events_app _ _ _ T). }
  match goal with
  | |- ?A /\ _ /\ ?C =>
      cut (A /\ C); [intros [HA HC]; split; [exact HA | split; [exact Hcount | exact HC]]|]
  end.
  clear Hcount. unfold process_query.
  rewrite (bind_ret _ _ s (self s) s) by reflexivity.
  destruct (collect_tools env (sessions (self s)) [] s) as [o1 s1] eqn:Hc.
  pose proof (collect_tools_extends _ _ _ _ _ Hc) as [_ (evs1 & T1 & F1)].
  destruct o1 as [tools|e|].
  - rewrite (bind_ret _ _ _ _ _ Hc). simpl.
    destruct (bind (create_message env [UserMessage query] tools) _ s1) as [o s'] eqn:Hrest.
    assert (Hext : extends (loop_event tools) s1 s').
    { revert Hrest. apply bind_extends.
      - intros o1 s2. apply create_message_extends.
      - intros message s2 o2 s3. apply while_tool_calls_extends. }
    destruct Hext as [_ (evs2 & T2 & F2)]. simpl.
    rewrite (new_events_app s s' (evs1 ++ evs2)) by (now rewrite T2, T1, app_assoc).
    rewrite (new_events_app s s1 evs1 T1). split.
    + rewrite List.filter_app, (filter_all _ _ F1).
      rewrite (filter_none is_list_tools _ evs2 (loop_event_not_list_tools tools) F2).
      apply app_nil_r.
    + rewrite catalogs_app, (catalogs_list_tools _ F1). simpl.
      now apply catalogs_loop.
  - rewrite (bind_raise _ _ _ _ _ Hc). simpl.
    rewrite (new_events_app s s1 evs1 T1). split.
    + now apply filter_all.
    + now apply catalogs_list_tools.
  - rewrite (bind_out_of_fuel _ _ _ _ Hc). simpl.
    rewrite (new_events_app s s1 evs1 T1). split.
    + now apply filter_all.
    + now apply catalogs_list_tools.
Qed.

(** *** The exits of the tool-call loop *)













(** *** How an exception leaves the query *)












(** *** A model that asks for tools on every turn *)








(** *** A response whose requests all resolve *)

Lemma process_tool_call_ret tc messages final_text s session original ms ft s' :
  tool_mapping (self s) !! call_name tc = Some (session, original) ->
  process_tool_call env tc messages final_text s = (Ret (ms, ft), s') ->
  exists i,
    answers env (self s) tc i /\
    trace s' = trace s ++ [invocation_event i] /\
    ms = messages ++ call_records env tc i /\
    self s' = self s.
Proof.
  intros Hr. unfold process_tool_call.
  rewrite (bind_ret _ _ s (self s) s) by reflexivity.
  rewrite Hr. unfold loads.
  destruct (json_loads env (call_arguments tc)) as [e|args] eqn:Hj;
    [intros H; discriminate H|].
  unfold bind at 1. unfold ret at 1.
  unfold bind at 1. unfold call_tool_guarded, try_except, await.
  destruct (call_tool env session original args (world s)) as [[e|result] w] eqn:Hc.
  - destruct (is_Exception (exc_class e)); simpl; intros H; discriminate H.
  - destruct result as [content isError|items]; simpl; intros H; [|discriminate H].
    inversion H; subst.
    exists {| inv_session := session; inv_name := original; inv_args := args;
              inv_content := content; inv_isError := isError |}.
    repeat split; assumption.
Qed.

Lemma for_tool_calls_resolved tcs messages final_text s ms ft s' :
  Forall (fun tc => is_Some (tool_mapping (self s) !! call_name tc)) tcs ->
  for_tool_calls env tcs messages final_text s = (Ret (ms, ft), s') ->
  exists invs,
    Forall2 (answers env (self s)) tcs invs /\
    trace s' = trace s ++ map invocation_event invs /\
    ms = messages ++ concat (zip_with (call_records env) tcs invs) /\
    self s' = self s.
Proof.
  revert messages final_text s.
  induction tcs as [|tc tcs IH]; intros messages final_text s Hall; simpl.
  - intros H. inversion H; subst. exists []. simpl.
    rewrite !app_nil_r. repeat split; constructor.
  - inversion Hall as [|? ? [[session original] Hr] Hall']; subst.
    unfold bind.
    destruct (process_tool_call env tc messages final_text s) as [[[m1 f1]|e|] s1] eqn:Hp;
      try discriminate.
    simpl. intros H.
    destruct (process_tool_call_ret _ _ _ _ _ _ _ _ _ Hr Hp) as (i & Ha & T1 & M1 & S1).
    rewrite <- S1 in Hall'.
    destruct (IH _ _ _ Hall' H) as (invs & Hf & T2 & M2 & S2).
    exists (i :: invs). simpl. repeat split.
    + constructor; [exact Ha|]. now rewrite <- S1.
    + rewrite T2, T1. now rewrite <- app_assoc.
    + rewrite M2, M1. now rewrite <- app_assoc.
    + congruence.
Qed.

Lemma call_records_length (tcs : list ToolCall) (invs : list Invocation) :
  length tcs = length invs ->
  length (concat (zip_with (call_records env) tcs invs)) = 2 * length tcs.
Proof.
  revert invs. induction tcs as [|tc tcs IH]; intros [|i invs] Hl; simpl in *;
    try discriminate; [reflexivity|].
  rewrite IH by lia. lia.
Qed.

Lemma call_records_roles (tcs : list ToolCall) (invs : list Invocation) :
  length tcs = length invs ->
  map role (concat (zip_with (call_records env) tcs invs))
    = concat (map (fun _ => ["assistant"; "tool"]) tcs).
Proof.
  revert invs. induction tcs as [|tc tcs IH]; intros [|i invs] Hl; simpl in *;
    try discriminate; [reflexivity|].
  now rewrite IH by lia.
Qed.

Lemma filter_invocations invs :
  List.filter is_call_tool (map invocation_event invs) = map invocation_event invs.
Proof. induction invs as [|i invs IH]; simpl; [reflexivity|]. now rewrite IH. Qed.

(** Requests that resolve and parse get through the for-loop unless a
    tool call of theirs fails to return a result. *)
Lemma for_tool_calls_returned tcs messages final_text s o s' :
  Forall (fun tc => is_Some (tool_mapping (self s) !! call_name tc)) tcs ->
  Forall (parses env) tcs ->
  for_tool_calls env tcs messages final_text s = (o, s') ->
  Forall returned (new_events s s') ->
  exists r, o = Ret r.
Proof.
  revert messages final_text s.
  induction tcs as [|tc tcs IH]; intros messages final_text s Hres Hparse; simpl.
  - intros H _. inversion H; subst. eauto.
  - inversion Hres as [|? ? [[session original] Hr] Hres']; subst.
    inversion Hparse as [|? ? [args Hj] Hparse']; subst.
    unfold bind.
    destruct (process_tool_call env tc messages final_text s) as [o1 s1] eqn:Hp.
    assert (Hcall : exists r w,
               call_tool env session original args (world s) = (r, w) /\
               trace s1 = trace s ++ [EvCallTool session original args r] ++
                            match r with
                            | inl e => if is_Exception (exc_class e)
                                       then [EvPrint ("调用工具 " +:+ original +:+ " 出错："
                                                        +:+ exc_text e)]
                                       else []
                            | inr _ => []
                            end /\
               self s1 = self s /\
               (returned (EvCallTool session original args r) -> exists r1, o1 = Ret r1)).
    { destruct (call_tool env session original args (world s)) as [r w] eqn:Hc.
      exists r, w. split; [reflexivity|].
      destruct r as [e|[content isError|items]].
      - destruct (is_Exception (exc_class e)) eqn:He.
        + rewrite (process_tool_call_raising_tool _ messages final_text _ _ _ _ _ _
                     Hr Hj Hc He) in Hp.
          inversion Hp; subst. simpl. repeat split.
          intros (content & isError & Hx). discriminate Hx.
        + revert Hp. unfold process_tool_call.
          rewrite (bind_ret _ _ s (self s) s) by reflexivity.
          rewrite Hr. unfold loads. rewrite Hj.
          unfold bind at 1. unfold ret at 1.
          unfold bind at 1. unfold call_tool_guarded, try_except, await.
          rewrite Hc, He. intros Hp. inversion Hp; subst. simpl. repeat split.
          intros (content & isError & Hx). discriminate Hx.
      - rewrite (process_tool_call_returning_tool _ messages final_text _ _ _ _ _ _ _
                   Hr Hj Hc) in Hp.
        inversion Hp; subst. simpl. repeat split. eauto.
      - revert Hp. unfold process_tool_call.
        rewrite (bind_ret _ _ s (self s) s) by reflexivity.
        rewrite Hr. unfold loads. rewrite Hj.
        unfold bind at 1. unfold ret at 1.
        unfold bind at 1. unfold call_tool_guarded, try_except, await.
        rewrite Hc. simpl. intros Hp. inversion Hp; subst. simpl. repeat split.
        intros (content & isError & Hx). discriminate Hx. }
    destruct Hcall as (r & w & _ & T1 & Hself & Hret).
    destruct o1 as [r1|e1|].
    + simpl. intros H Hev.
      destruct (for_tool_calls_extends _ _ _ _ _ _ H) as [_ (evs2 & T2 & _)].
      rewrite <- Hself in Hres'.
      apply (IH _ _ _ Hres' Hparse' H).
      rewrite (new_events_app s1 s' evs2 T2).
      rewrite (new_events_app s s' (([EvCallTool session original args r] ++
                  match r with
                  | inl e => if is_Exception (exc_class e)
                             then [EvPrint ("调用工具 " +:+ original +:+ " 出错："
                                              +:+ exc_text e)]
                             else []
                  | inr _ => []
                  end) ++ evs2)) in Hev
        by (rewrite T2, T1; now rewrite <- !app_assoc).
      apply Forall_app in Hev. apply Hev.
    + intros H Hev. inversion H; subst. exfalso.
      rewrite (new_events_app s s' _ T1) in Hev.
      apply Forall_app in Hev as [Hev _]. apply Forall_inv in Hev.
      destruct (Hret Hev) as [r1 Hr1]. discriminate Hr1.
    + intros H Hev. inversion H; subst. exfalso.
      rewrite (new_events_app s s' _ T1) in Hev.
      apply Forall_app in Hev as [Hev _]. apply Forall_inv in Hev.
      destruct (Hret Hev) as [r1 Hr1]. discriminate Hr1.
Qed.

(** C6 (with the provisos the code needs): take a pass of the loop
    over [k] requests that all resolve in [tool_mapping], whose
    arguments [json.loads] accepts and whose tool calls all return a
    result.  The pass makes exactly [k] tool calls, one per request
    and in the order of the requests (each on the session and under
    the original name the request's prefixed name maps to, with the
    request's parsed arguments), and then its inference call; the
    message list that call sends is the former one with exactly [2k]
    messages appended: for each request an assistant record of the
    call (id, name, arguments) followed by the tool record of its
    result. *)
Theorem resolved_requests_called_in_order tcs messages final_text tools s o s' :
  Forall (fun tc => is_Some (tool_mapping (self s) !! call_name tc)) tcs ->
  Forall (parses env) tcs ->
  while_body env tcs messages final_text tools s = (o, s') ->
  Forall returned (new_events s s') ->
  exists invs messages' r,
    Forall2 (answers env (self s)) tcs invs /\
    new_events s s' = map invocation_event invs ++ [EvCreate messages' tools r] /\
    length (List.filter is_call_tool (new_events s s')) = length tcs /\
    messages' = messages ++ concat (zip_with (call_records env) tcs invs) /\
    length messages' = length messages + 2 * length tcs /\
    map role (drop (length messages) messages')
      = concat (map (fun _ => ["assistant"; "tool"]) tcs).
Proof.
  intros Hall Hparse Hb Hret. unfold while_body in Hb. unfold bind at 1 in Hb.
  destruct (for_tool_calls env tcs messages final_text s) as [o0 s0] eqn:Hf.
  assert (Hpre : Forall returned (new_events s s0)).
  { destruct (for_tool_calls_extends _ _ _ _ _ _ Hf) as [_ (evs0 & T0 & _)].
    rewrite (new_events_app s s0 evs0 T0).
    destruct o0 as [r0|e0|].
    - simpl in Hb. unfold bind in Hb.
      destruct (create_message env (fst r0) tools s0) as [om s1] eqn:Hm.
      assert (s' = s1) as -> by (destruct om; now inversion Hb).
      destruct (create_message_spec _ _ _ _ _ Hm) as [_ (r & T2 & _)].
      rewrite (new_events_app s s1 (evs0 ++ [EvCreate (fst r0) tools r])) in Hret
        by (now rewrite T2, T0, app_assoc).
      apply Forall_app in Hret. apply Hret.
    - inversion Hb; subst. now rewrite (new_events_app s s' evs0 T0) in Hret.
    - inversion Hb; subst. now rewrite (new_events_app s s' evs0 T0) in Hret. }
  destruct (for_tool_calls_returned _ _ _ _ _ _ Hall Hparse Hf Hpre) as [[ms ft] ->].
  simpl in Hb. unfold bind in Hb.
  destruct (create_message env ms tools s0) as [om s1] eqn:Hm.
  assert (s' = s1) as -> by (destruct om; now inversion Hb).
  destruct (for_tool_calls_resolved _ _ _ _ _ _ _ Hall Hf) as (invs & Ha & T1 & M1 & _).
  destruct (create_message_spec _ _ _ _ _ Hm) as [_ (r & T2 & _)].
  pose proof (Forall2_length _ _ _ Ha) as Hl.
  assert (Hev : new_events s s1 = map invocation_event invs ++ [EvCreate ms tools r]).
  { apply new_events_app. now rewrite T2, T1, app_assoc. }
  exists invs, ms, r. repeat split; try assumption.
  - rewrite Hev, List.filter_app, filter_invocations. simpl.
    rewrite app_nil_r, length_map. now symmetry.
  - rewrite M1, length_app, call_records_length by exact Hl. reflexivity.
  - rewrite M1, drop_app_length. now apply call_records_roles.
Qed.

(** *** Prefixed names *)

Lemma string_of_uint_digits d : all_digits (NilEmpty.string_of_uint d) = true.
Proof. induction d; simpl; auto. Qed.

Lemma str_nat_inj i j : str_nat i = str_nat j -> i = j.
Proof.
  unfold str_nat. intros H.
  assert (Hu : Nat.to_uint i = Nat.to_uint j).
  { apply (f_equal NilEmpty.uint_of_string) in H.
    rewrite !NilEmpty.usu in H. now inversion H. }
  apply (f_equal Nat.of_uint) in Hu. now rewrite !Unsigned.of_to in Hu.
Qed.

(** A run of digits followed by an underscore ends at that underscore. *)
Lemma digits_underscore_split d1 d2 r1 r2 :
  all_digits d1 = true -> all_digits d2 = true ->
  d1 +:+ String "_" r1 = d2 +:+ String "_" r2 -> d1 = d2 /\ r1 = r2.
Proof.
  revert d2. induction d1 as [|a d1 IH]; intros [|b d2] H1 H2 H; simpl in *.
  - now inversion H.
  - injection H as Hb _. subst b. discriminate.
  - injection H as Ha _. subst a. discriminate.
  - injection H as Hab Hrest. subst b.
    apply andb_prop in H1 as [_ H1]. apply andb_prop in H2 as [_ H2].
    destruct (IH _ H1 H2 Hrest) as [-> ->]. auto.
Qed.

Lemma prefixed_cancel sid name1 name2 :
  prefixed sid name1 = prefixed sid name2 -> name1 = name2.
Proof.
  unfold prefixed. induction sid as [|a sid IH]; simpl; intros H.
  - now injection H.
  - injection H as H. now apply IH.
Qed.

Lemma prefixed_inj i j name1 name2 :
  prefixed (server_id i) name1 = prefixed (server_id j) name2 ->
  i = j /\ name1 = name2.
Proof.
  unfold prefixed, server_id. cbn [String.append]. intros H.
  injection H as H'.
  apply digits_underscore_split in H' as [Hd Hn];
    try apply string_of_uint_digits.
  split; [now apply str_nat_inj | exact Hn].
Qed.

(** *** Registration *)

Lemma register_tools_spec sid session tools s :
  register_tools sid session tools s
  = (Ret tt,
     {| world := world s; trace := trace s;
        self := {| model_name := model_name (self s);
                   server_sources := server_sources (self s);
                   sessions := sessions (self s);
                   tool_mapping :=
                     insert_all
                       (map (fun tool => (prefixed sid (tool_name tool),
                                          (session, tool_name tool))) tools)
                       (tool_mapping (self s));
                   exit_stack := exit_stack (self s) |} |}).
Proof.
  revert s. induction tools as [|tool tools IH]; intros s; simpl.
  - destruct s as [w t [a b c d e]]. reflexivity.
  - unfold bind, set_tool_mapping. rewrite IH. reflexivity.
Qed.

Lemma insert_all_app l1 l2 m : insert_all (l1 ++ l2) m = insert_all l2 (insert_all l1 m).
Proof. apply foldl_app. Qed.

Lemma elem_of_snoc_last {A} (l : list A) (x : A) : x ∈ l ++ [x].
Proof. apply elem_of_app. right. now apply list_elem_of_singleton. Qed.

Lemma elem_of_snoc_init {A} (l : list A) (x y : A) : y ∈ l -> y ∈ l ++ [x].
Proof. intros H. apply elem_of_app. now left. Qed.

Lemma insert_all_lookup_elem l m key v :
  (key, v) ∈ l ->
  (forall v', (key, v') ∈ l -> v' = v) ->
  insert_all l m !! key = Some v.
Proof.
  induction l as [|[k x] l IH] using rev_ind; intros Hin Hfun.
  - now apply elem_of_nil in Hin.
  - rewrite insert_all_app. unfold insert_all at 1. simpl.
    destruct (decide (k = key)) as [->|Hne].
    + rewrite lookup_insert_eq. f_equal. apply Hfun. apply elem_of_snoc_last.
    + rewrite lookup_insert_ne by exact Hne. apply IH.
      * apply elem_of_app in Hin as [Hin|Hin]; [exact Hin|].
        apply list_elem_of_singleton in Hin. congruence.
      * intros v' Hv'. apply Hfun. now apply elem_of_snoc_init.
Qed.

Lemma insert_all_lookup_other l m key :
  key ∉ map fst l -> insert_all l m !! key = m !! key.
Proof.
  induction l as [|[k x] l IH] using rev_ind; intros Hnot; [reflexivity|].
  rewrite insert_all_app. unfold insert_all at 1. simpl.
  rewrite map_app in Hnot. simpl in Hnot.
  rewrite lookup_insert_ne.
  - apply IH. intros Hin. apply Hnot. now apply elem_of_snoc_init.
  - intros ->. apply Hnot. apply elem_of_snoc_last.
Qed.

Lemma insert_all_lookup_inv l key v :
  insert_all l ∅ !! key = Some v -> (key, v) ∈ l.
Proof.
  induction l as [|[k x] l IH] using rev_ind.
  - unfold insert_all. simpl. now rewrite lookup_empty.
  - rewrite insert_all_app. unfold insert_all at 1. simpl.
    destruct (decide (k = key)) as [->|Hne].
    + rewrite lookup_insert_eq. intros [= ->]. apply elem_of_snoc_last.
    + rewrite lookup_insert_ne by exact Hne. intros H.
      apply elem_of_snoc_init. now apply IH.
Qed.

Lemma insert_all_size l :
  NoDup (map fst l) -> size (insert_all l ∅) = length l.
Proof.
  induction l as [|[k x] l IH] using rev_ind; intros Hnd.
  - reflexivity.
  - rewrite map_app in Hnd. apply NoDup_app in Hnd as (Hnd & Hdisj & _).
    rewrite insert_all_app. unfold insert_all at 1. simpl.
    rewrite map_size_insert_None.
    + rewrite IH by exact Hnd. rewrite length_app. simpl. lia.
    + rewrite insert_all_lookup_other; [apply lookup_empty|].
      intros Hin. apply (Hdisj k Hin). simpl. now apply list_elem_of_singleton.
Qed.

(** C5 (as the code has it): registering a session's tools never
    raises and touches nothing but [tool_mapping]; afterwards every
    tool of the list is found under its prefixed name, whatever was
    stored under that name before, and every other key is as it was. *)
Theorem registration_overwrites_silently sid session tools s :
  exists s',
    register_tools sid session tools s = (Ret tt, s') /\
    world s' = world s /\ trace s' = trace s /\
    (forall tool, tool ∈ tools ->
       tool_mapping (self s') !! prefixed sid (tool_name tool)
         = Some (session, tool_name tool)) /\
    (forall key, key ∉ map (fun tool => prefixed sid (tool_name tool)) tools ->
       tool_mapping (self s') !! key = tool_mapping (self s) !! key).
Proof.
  eexists. split; [apply register_tools_spec|]. simpl.
  split; [reflexivity|]. split; [reflexivity|]. split.
  - intros tool Hin. apply insert_all_lookup_elem.
    + apply (list_elem_of_fmap_2 (fun tool => (prefixed sid (tool_name tool),
                                   (session, tool_name tool))) tools tool Hin).
    + intros v' Hv'. apply list_elem_of_fmap in Hv' as (tool' & Heq & _).
      inversion Heq as [[Hk Hv]]. apply prefixed_cancel in Hk. now rewrite Hk.
  - intros key Hnot. apply insert_all_lookup_other.
    now rewrite map_map.
Qed.

(** *** Initialization *)

Lemma connect_server_spec i server_source s o s' :
  connect_server env i server_source s = (o, s') ->
  o <> OutOfFuel /\
  exists evs,
    trace s' = trace s ++ evs /\
    exited evs = [] /\
    exit_stack (self s') = rev (entered evs) ++ exit_stack (self s) /\
    (o = Ret tt ->
     exists session tools,
       advertised evs = [(session, tools)] /\
       tool_mapping (self s')
         = insert_all (server_entries i session tools) (tool_mapping (self s))).
Proof.
  unfold connect_server, bind, enter_async_context, await, set_session, print, log.
  destruct (stdio_client env server_source (world s)) as [[e|t] w1]; simpl.
  { intros H. inversion H; subst. split; [discriminate|].
    exists []. simpl. rewrite app_nil_r. repeat split; discriminate. }
  destruct (client_session env t w1) as [[e|session] w2]; simpl.
  { intros H. inversion H; subst. split; [discriminate|].
    eexists. simpl. split; [reflexivity|]. repeat split; discriminate. }
  destruct (session_initialize env session w2) as [[e|[]] w3]; simpl.
  { intros H. inversion H; subst. split; [discriminate|].
    eexists. simpl. split; [rewrite <- !app_assoc; reflexivity|].
    repeat split; discriminate. }
  destruct (list_tools env session w3) as [[e|tools] w4]; simpl.
  { intros H. inversion H; subst. split; [discriminate|].
    eexists. simpl. split; [rewrite <- !app_assoc; reflexivity|].
    repeat split; discriminate. }
  rewrite register_tools_spec. simpl.
  intros H. inversion H; subst. split; [discriminate|].
  eexists. simpl. split; [rewrite <- !app_assoc; reflexivity|].
  repeat split. intros _. exists session, tools. split; reflexivity.
Qed.

Lemma advertised_app evs1 evs2 :
  advertised (evs1 ++ evs2) = advertised evs1 ++ advertised evs2.
Proof.
  induction evs1 as [|ev evs1 IH]; simpl; [reflexivity|].
  destruct ev as [| | | ? [|] | | | |]; simpl; now rewrite ?IH.
Qed.

Lemma entered_app evs1 evs2 : entered (evs1 ++ evs2) = entered evs1 ++ entered evs2.
Proof.
  induction evs1 as [|ev evs1 IH]; simpl; [reflexivity|].
  destruct ev; simpl; now rewrite ?IH.
Qed.

Lemma exited_app evs1 evs2 : exited (evs1 ++ evs2) = exited evs1 ++ exited evs2.
Proof.
  induction evs1 as [|ev evs1 IH]; simpl; [reflexivity|].
  destruct ev; simpl; now rewrite ?IH.
Qed.

Lemma stacked_refl s : stacked s s.
Proof. exists []. simpl. now rewrite app_nil_r. Qed.

Lemma stacked_trans s1 s2 s3 : stacked s1 s2 -> stacked s2 s3 -> stacked s1 s3.
Proof.
  intros (e1 & T1 & X1 & K1) (e2 & T2 & X2 & K2). exists (e1 ++ e2).
  rewrite T2, T1, K2, K1, exited_app, entered_app, X1, X2, rev_app_distr.
  now rewrite !app_assoc.
Qed.

Lemma initialize_from_stacked i sources s o s' :
  initialize_from env i sources s = (o, s') -> o <> OutOfFuel /\ stacked s s'.
Proof.
  revert i s. induction sources as [|src sources IH]; intros i s; simpl.
  - intros H. inversion H. split; [discriminate | apply stacked_refl].
  - unfold bind.
    destruct (connect_server env i src s) as [o1 s1] eqn:Hc.
    destruct (connect_server_spec _ _ _ _ _ Hc) as (Hfuel & evs & T & X & K & _).
    assert (Hs : stacked s s1) by (exists evs; auto).
    destruct o1 as [[]|e|]; [| intros H; inversion H; subst; auto | contradiction].
    intros H. destruct (IH _ _ H) as [Ho Hs']. split; [exact Ho|].
    eapply stacked_trans; eauto.
Qed.

Lemma initialize_from_ret i sources s s' :
  initialize_from env i sources s = (Ret tt, s') ->
  exists evs,
    trace s' = trace s ++ evs /\
    length (advertised evs) = length sources /\
    tool_mapping (self s')
      = insert_all (entries_from i (advertised evs)) (tool_mapping (self s)).
Proof.
  revert i s. induction sources as [|src sources IH]; intros i s; simpl.
  - intros H. inversion H; subst. exists []. now rewrite app_nil_r.
  - unfold bind.
    destruct (connect_server env i src s) as [[[]|e|] s1] eqn:Hc; try discriminate.
    destruct (connect_server_spec _ _ _ _ _ Hc) as (_ & evs1 & T1 & _ & _ & Hret).
    destruct (Hret eq_refl) as (session & tools & A1 & M1).
    intros H. destruct (IH _ _ H) as (evs2 & T2 & L2 & M2).
    exists (evs1 ++ evs2). rewrite advertised_app, A1. simpl. repeat split.
    + now rewrite T2, T1, app_assoc.
    + now rewrite L2.
    + now rewrite M2, M1, insert_all_app.
Qed.

(** *** The namespace *)

Lemma elem_of_entries_from b adv key v :
  (key, v) ∈ entries_from b adv <->
  exists i session tools tool,
    adv !! i = Some (session, tools) /\ tool ∈ tools /\
    key = prefixed (server_id (b + i)) (tool_name tool) /\
    v = (session, tool_name tool).
Proof.
  revert b. induction adv as [|[session tools] adv IH]; intros b; simpl.
  - split; [intros H; now apply elem_of_nil in H|].
    intros (i & ? & ? & ? & H & _). discriminate.
  - rewrite elem_of_app, IH. unfold server_entries. rewrite list_elem_of_fmap. split.
    + intros [(tool & Heq & Hin) | (i & se & ts & tool & Hl & Hin & -> & ->)].
      * inversion Heq; subst. exists 0, session, tools, tool.
        rewrite Nat.add_0_r. auto.
      * exists (S i), se, ts, tool. rewrite Nat.add_succ_r. auto.
    + intros ([|i] & se & ts & tool & Hl & Hin & -> & ->); simpl in Hl.
      * inversion Hl; subst. left. exists tool. rewrite Nat.add_0_r. auto.
      * right. exists i, se, ts, tool. rewrite Nat.add_succ_r. auto.
Qed.

Lemma entries_from_functional b adv key v1 v2 :
  (key, v1) ∈ entries_from b adv -> (key, v2) ∈ entries_from b adv -> v1 = v2.
Proof.
  rewrite !elem_of_entries_from.
  intros (i1 & se1 & ts1 & t1 & L1 & _ & K1 & ->) (i2 & se2 & ts2 & t2 & L2 & _ & K2 & ->).
  rewrite K1 in K2. apply prefixed_inj in K2 as [Hi Hn].
  assert (i1 = i2) by lia. subst i2. rewrite L1 in L2. inversion L2; subst.
  now rewrite Hn.
Qed.

Lemma entries_from_length b adv : length (entries_from b adv) = tool_count adv.
Proof.
  revert b. unfold tool_count.
  induction adv as [|[session tools] adv IH]; intros b; simpl; [reflexivity|].
  unfold server_entries. now rewrite length_app, length_map, IH.
Qed.

Lemma entries_from_keys_NoDup b adv :
  names_distinct adv -> NoDup (map fst (entries_from b adv)).
Proof.
  revert b. induction adv as [|[session tools] adv IH]; intros b Hnd; simpl.
  - constructor.
  - inversion Hnd as [|? ? Hhd Htl]; subst. simpl in Hhd.
    rewrite map_app. apply NoDup_app. split; [|split].
    + unfold server_entries. rewrite map_map. simpl.
      clear -Hhd. induction tools as [|t tools IHt]; simpl in *; [constructor|].
      inversion Hhd as [|? ? Hnot Hrest]; subst. constructor; [|now apply IHt].
      intros Hin. apply Hnot.
      apply list_elem_of_fmap in Hin as (t' & Heq & Hin).
      apply prefixed_cancel in Heq. rewrite Heq.
      now apply (list_elem_of_fmap_2 tool_name).
    + intros key Hin1 Hin2.
      apply list_elem_of_fmap in Hin1 as ([k1 v1] & -> & Hin1).
      apply list_elem_of_fmap in Hin2 as ([k2 v2] & Hk & Hin2). simpl in Hk. subst k2.
      unfold server_entries in Hin1.
      apply list_elem_of_fmap in Hin1 as (t1 & Heq & _). inversion Heq; subst.
      apply elem_of_entries_from in Hin2 as (i & _ & _ & t2 & _ & _ & K & _).
      apply prefixed_inj in K as [Hi _]. lia.
    + now apply IH.
Qed.

Lemma insert_all_is_Some l key :
  is_Some (insert_all l ∅ !! key) <-> key ∈ map fst l.
Proof.
  split.
  - intros [v Hv]. apply insert_all_lookup_inv in Hv.
    now apply (list_elem_of_fmap_2 fst l (key, v)).
  - induction l as [|[k x] l IH] using rev_ind; intros Hin.
    + now apply elem_of_nil in Hin.
    + rewrite insert_all_app. unfold insert_all at 1. simpl.
      destruct (decide (k = key)) as [->|Hne].
      * rewrite lookup_insert_eq. eauto.
      * rewrite lookup_insert_ne by exact Hne. apply IH.
        rewrite map_app in Hin. apply elem_of_app in Hin as [Hin|Hin]; [exact Hin|].
        simpl in Hin. apply list_elem_of_singleton in Hin. congruence.
Qed.

Lemma length_same_elements (l k : list string) :
  NoDup l -> NoDup k -> (forall x, x ∈ l <-> x ∈ k) -> length l = length k.
Proof. intros Hl Hk Hlk. apply Permutation_length. now apply NoDup_Permutation. Qed.

(** The number of entries is the number of distinct keys assigned. *)
Lemma insert_all_size_distinct l :
  size (insert_all l ∅) = length (remove_dups (map fst l)).
Proof.
  rewrite <- length_map_to_list.
  rewrite <- (length_map fst (map_to_list (insert_all l ∅))).
  apply length_same_elements.
  - apply NoDup_fst_map_to_list.
  - apply NoDup_remove_dups.
  - intros k. rewrite elem_of_remove_dups. split.
    + intros Hin. apply insert_all_is_Some.
      apply list_elem_of_fmap in Hin as ([k' v] & -> & Hin).
      apply elem_of_map_to_list in Hin. eauto.
    + intros Hin. apply insert_all_is_Some in Hin as [v Hv].
      apply (list_elem_of_fmap_2 fst _ (k, v)).
      now apply elem_of_map_to_list.
Qed.

Lemma remove_dups_app_length (l k : list string) :
  (forall x, x ∈ l -> x ∉ k) ->
  length (remove_dups (l ++ k)) = length (remove_dups l) + length (remove_dups k).
Proof.
  intros Hd. rewrite <- length_app. apply length_same_elements.
  - apply NoDup_remove_dups.
  - apply NoDup_app. split; [apply NoDup_remove_dups|].
    split; [|apply NoDup_remove_dups].
    intros x. rewrite !elem_of_remove_dups. apply Hd.
  - intros x. rewrite elem_of_app, !elem_of_remove_dups, elem_of_app. reflexivity.
Qed.

Lemma remove_dups_prefixed_length sid (names : list string) :
  length (remove_dups (map (prefixed sid) names)) = length (remove_dups names).
Proof.
  rewrite <- (length_map (prefixed sid) (remove_dups names)).
  assert (Hinj : Inj eq eq (prefixed sid))
    by (intros a b H; exact (prefixed_cancel _ _ _ H)).
  apply length_same_elements.
  - apply NoDup_remove_dups.
  - apply (NoDup_fmap_2 (prefixed sid)). apply NoDup_remove_dups.
  - intros x. rewrite elem_of_remove_dups. split.
    + intros Hin. apply list_elem_of_fmap in Hin as (y & -> & Hin).
      apply (list_elem_of_fmap_2 (prefixed sid)). now apply elem_of_remove_dups.
    + intros Hin. apply list_elem_of_fmap in Hin as (y & -> & Hin).
      apply (proj1 (elem_of_remove_dups _ _)) in Hin.
      now apply (list_elem_of_fmap_2 (prefixed sid)).
Qed.

Lemma entries_from_distinct_keys b adv :
  length (remove_dups (map fst (entries_from b adv))) = distinct_tool_count adv.
Proof.
  revert b. induction adv as [|[session tools] adv IH]; intros b; simpl; [reflexivity|].
  rewrite map_app, remove_dups_app_length.
  - unfold distinct_tool_count. simpl. f_equal; [|apply IH].
    unfold server_entries. rewrite map_map. simpl.
    rewrite <- (map_map tool_name (prefixed (server_id b))).
    apply remove_dups_prefixed_length.
  - intros key Hin1 Hin2.
    apply list_elem_of_fmap in Hin1 as ([k1 v1] & -> & Hin1).
    apply list_elem_of_fmap in Hin2 as ([k2 v2] & Hk & Hin2). simpl in Hk. subst k2.
    unfold server_entries in Hin1.
    apply list_elem_of_fmap in Hin1 as (t1 & Heq & _). inversion Heq; subst.
    apply elem_of_entries_from in Hin2 as (i & _ & _ & t2 & _ & _ & K & _).
    apply prefixed_inj in K as [Hi _]. lia.
Qed.

(** C8: after [initialize_sessions] has returned on a client whose
    [tool_mapping] was empty, one tool list was obtained per
    configured server, and the servers may well offer tools of the
    same name.  Every tool of server [i] is found under
    ["server" + str(i) + "_" + name] and resolves to that server's
    session and the tool's own name; the mapping has no other key; it
    has exactly as many entries as the servers have tools, summed over
    the servers (a name counts once for a server, so that with lists
    that do not repeat a name this is the sum of their lengths); and
    the keys are unique: two of them are equal only for the same
    server and the same tool name. *)
Theorem namespace_after_initialization s s' :
  tool_mapping (self s) = ∅ ->
  initialize_sessions env s = (Ret tt, s') ->
  let adv := advertised (new_events s s') in
  length adv = length (server_sources (self s)) /\
  (forall i session tools tool,
     adv !! i = Some (session, tools) -> tool ∈ tools ->
     tool_mapping (self s') !! prefixed (server_id i) (tool_name tool)
       = Some (session, tool_name tool)) /\
  (forall key v,
     tool_mapping (self s') !! key = Some v ->
     exists i session tools tool,
       adv !! i = Some (session, tools) /\ tool ∈ tools /\
       key = prefixed (server_id i) (tool_name tool) /\
       v = (session, tool_name tool)) /\
  size (tool_mapping (self s')) = distinct_tool_count adv /\
  (names_distinct adv -> size (tool_mapping (self s')) = tool_count adv) /\
  (forall i j name1 name2,
     prefixed (server_id i) name1 = prefixed (server_id j) name2 ->
     i = j /\ name1 = name2).
Proof.
  intros Hempty Hinit adv. unfold initialize_sessions in Hinit.
  rewrite (bind_ret _ _ s (self s) s) in Hinit by reflexivity.
  destruct (initialize_from_ret _ _ _ _ Hinit) as (evs & T & L & Hmap).
  assert (Hadv : adv = advertised evs).
  { unfold adv. now rewrite (new_events_app _ _ _ T). }
  rewrite Hempty in Hmap. rewrite Hmap, Hadv.
  split; [exact L|]. split; [|split; [|split; [|split]]].
  - intros i session tools tool Hl Hin.
    assert (Hel : (prefixed (server_id i) (tool_name tool), (session, tool_name tool))
                  ∈ entries_from 0 (advertised evs)).
    { apply elem_of_entries_from. exists i, session, tools, tool. auto. }
    apply insert_all_lookup_elem; [exact Hel|].
    intros v' Hv'. exact (entries_from_functional _ _ _ _ _ Hv' Hel).
  - intros key v Hlook. apply insert_all_lookup_inv in Hlook.
    apply elem_of_entries_from in Hlook. exact Hlook.
  - rewrite insert_all_size_distinct. apply entries_from_distinct_keys.
  - intros Hnd. rewrite insert_all_size by now apply entries_from_keys_NoDup.
    apply entries_from_length.
  - exact prefixed_inj.
Qed.

(** *** Shutdown *)

Lemma entered_exits stack : entered (map EvExit stack) = [].
Proof. induction stack; simpl; auto. Qed.

Lemma exited_exits stack : exited (map EvExit stack) = stack.
Proof. induction stack; simpl; congruence. Qed.

Lemma quiet_entered evs : Forall quiet evs -> entered evs = [].
Proof. induction 1 as [|ev evs Hev _ IH]; [reflexivity|]. now destruct ev. Qed.

Lemma quiet_exited evs : Forall quiet evs -> exited evs = [].
Proof. induction 1 as [|ev evs Hev _ IH]; [reflexivity|]. now destruct ev. Qed.

Lemma extends_quiet_stacked s s' : extends quiet s s' -> stacked s s'.
Proof.
  intros [Hs (evs & T & F)]. exists evs. split; [exact T|].
  rewrite (quiet_entered _ F), (quiet_exited _ F), Hs. auto.
Qed.

Lemma aclose_from_spec stack pending s :
  exit_stack (self s) = stack ->
  exists o s',
    aclose_from env stack pending s = (o, s') /\
    o <> OutOfFuel /\
    (pending = None -> stack = [] -> o = Ret tt /\ s' = s) /\
    trace s' = trace s ++ map EvExit stack /\
    exit_stack (self s') = [].
Proof.
  revert pending s. induction stack as [|r stack IH]; intros pending s Hstack; simpl.
  - destruct pending as [e|]; eexists _, s; (split; [reflexivity|]);
      (split; [discriminate|]); rewrite app_nil_r; repeat split; try assumption;
      discriminate.
  - unfold bind, pop_exit_stack, run_aexit. cbn [world trace self exit_stack].
    destruct (aexit env r (world s)) as [x w] eqn:Hx.
    match goal with
    | |- context [aclose_from env stack ?p ?st] =>
        destruct (IH p st) as (o & s' & Hrun & Hfuel & _ & T & K)
    end.
    { simpl. now rewrite Hstack. }
    exists o, s'. split; [exact Hrun|]. split; [exact Hfuel|]. split; [discriminate|].
    split; [|exact K]. rewrite T. simpl. now rewrite <- app_assoc.
Qed.

Lemma cleanup_spec s :
  exists o s',
    cleanup env s = (o, s') /\
    o <> OutOfFuel /\
    trace s' = trace s ++ map EvExit (exit_stack (self s)) /\
    exit_stack (self s') = [].
Proof.
  destruct (aclose_from_spec (exit_stack (self s)) None s eq_refl)
    as (o & s' & Hrun & Hfuel & _ & T & K).
  exists o, s'. unfold cleanup.
  rewrite (bind_ret _ _ s (self s) s) by reflexivity. auto.
Qed.

Lemma cleanup_nothing_left s :
  exit_stack (self s) = [] -> cleanup env s = (Ret tt, s).
Proof.
  intros Hempty.
  destruct (aclose_from_spec [] None s Hempty) as (o & s' & Hrun & _ & Hsame & _).
  destruct (Hsame eq_refl eq_refl) as [-> ->].
  unfold cleanup. rewrite (bind_ret _ _ s (self s) s) by reflexivity.
  now rewrite Hempty.
Qed.

(** *** The chat loop leaves the exit stack alone *)

Lemma list_tools_quiet ev : is_list_tools ev = true -> quiet ev.
Proof. now destruct ev. Qed.

Lemma loop_event_quiet tools ev : loop_event tools ev -> quiet ev.
Proof. now destruct ev. Qed.

Lemma process_query_quiet fuel query s o s' :
  process_query env fuel query s = (o, s') -> extends quiet s s'.
Proof.
  unfold process_query. rewrite (bind_ret _ _ s (self s) s) by reflexivity.
  apply bind_extends.
  - intros o1 s1 H. eapply extends_weaken; [apply list_tools_quiet|].
    eapply collect_tools_extends; exact H.
  - intros tools s1 o2 s2. apply bind_extends.
    + intros o1 s3 H. eapply extends_weaken; [apply (loop_event_quiet tools)|].
      eapply create_message_extends; exact H.
    + intros message s3 o3 s4 H. eapply extends_weaken; [apply (loop_event_quiet tools)|].
      eapply while_tool_calls_extends; exact H.
Qed.

Lemma try_except_extends {A} P (body : M World A) handler s o s' :
  (forall o1 s1, body s = (o1, s1) -> extends P s s1) ->
  (forall e s1 o2 s2, handler e s1 = (o2, s2) -> extends P s1 s2) ->
  try_except body handler s = (o, s') -> extends P s s'.
Proof.
  intros Hb Hh. unfold try_except.
  destruct (body s) as [[a|e|] s1] eqn:E; intros H.
  - inversion H; subst. eapply Hb; reflexivity.
  - destruct (is_Exception (exc_class e)).
    + eapply extends_trans; [eapply Hb; reflexivity | eapply Hh; exact H].
    + inversion H; subst. eapply Hb; reflexivity.
  - inversion H; subst. eapply Hb; reflexivity.
Qed.

Lemma chat_loop_banner fuel turns s :
  chat_loop env fuel turns s = chat_while env fuel turns (after_banner s).
Proof. reflexivity. Qed.

Lemma chat_while_quiet fuel turns s o s' :
  chat_while env fuel turns s = (o, s') -> extends quiet s s'.
Proof.
  revert s o s'. induction turns as [|turns IH]; intros s o s'; simpl.
  - intros H. inversion H. apply extends_refl.
  - apply bind_extends.
    + intros o1 s1. apply try_except_extends.
      * intros o2 s2. unfold chat_turn. apply bind_extends.
        { intros o3 s3. now apply await_extends. }
        intros line s3 o3 s4.
        destruct (String.eqb _ "quit"); [intros H; inversion H; apply extends_refl|].
        apply bind_extends; [intros o4 s5; apply process_query_quiet|].
        intros response s5 o4 s6. apply bind_extends.
        { intros o5 s7. now apply print_extends. }
        intros [] s7 o5 s8 H. inversion H. apply extends_refl.
      * intros e s2 o2 s3. apply bind_extends.
        { intros o3 s4. now apply print_extends. }
        intros [] s4 o3 s5 H. inversion H. apply extends_refl.
    + intros [|] s1 o2 s2; [intros H; inversion H; apply extends_refl | apply IH].
Qed.

Lemma chat_loop_quiet fuel turns s o s' :
  chat_loop env fuel turns s = (o, s') -> extends quiet s s'.
Proof.
  unfold chat_loop. apply bind_extends.
  - intros o1 s1. now apply print_extends.
  - intros [] s1 o2 s2. apply chat_while_quiet.
Qed.

Lemma client_body_stacked fuel turns s o s' :
  bind (initialize_sessions env) (fun _ => chat_loop env fuel turns) s = (o, s') ->
  stacked s s'.
Proof.
  unfold bind at 1.
  change (initialize_sessions env s)
    with (initialize_from env 0 (server_sources (self s)) s).
  destruct (initialize_from env 0 (server_sources (self s)) s) as [o1 s1] eqn:Hi.
  destruct (initialize_from_stacked _ _ _ _ _ Hi) as [_ Hs].
  destruct o1 as [[]|e|]; try (intros H; inversion H; subst; exact Hs).
  intros H. eapply stacked_trans; [exact Hs|].
  apply extends_quiet_stacked. eapply chat_loop_quiet; exact H.
Qed.

Lemma run_client_releases fuel turns s o s' :
  exit_stack (self s) = [] ->
  run_client env fuel turns s = (o, s') ->
  o <> OutOfFuel ->
  exited (new_events s s') = rev (entered (new_events s s')) /\
  exit_stack (self s') = [] /\
  cleanup env s' = (Ret tt, s').
Proof.
  intros Hfresh Hrun Hfuel. unfold run_client, try_finally in Hrun.
  destruct (bind (initialize_sessions env) (fun _ => chat_loop env fuel turns) s)
    as [o1 s1] eqn:Hbody.
  destruct (client_body_stacked _ _ _ _ _ Hbody) as (evs & T1 & X1 & K1).
  destruct (cleanup_spec s1) as (oc & s2 & Hc & Hcf & T2 & K2).
  rewrite Hfresh, app_nil_r in K1.
  assert (Hs' : s' = s2).
  { destruct o1 as [a|e|];
      [| | inversion Hrun; subst; contradiction];
      rewrite Hc in Hrun; destruct oc; now inversion Hrun. }
  rewrite Hs'.
  assert (Hev : new_events s s2 = evs ++ map EvExit (rev (entered evs))).
  { apply new_events_app. now rewrite T2, T1, K1, app_assoc. }
  rewrite Hev, exited_app, entered_app, X1, exited_exits, entered_exits, app_nil_r.
  split; [reflexivity|]. split; [exact K2|]. now apply cleanup_nothing_left.
Qed.

(** [main] as a whole: whatever the client object held before, a run
    of [main] that ends has left every context manager it entered,
    last one first. *)
Lemma main_releases fuel turns s o s' :
  main env fuel turns s = (o, s') ->
  o <> OutOfFuel ->
  exited (new_events s s') = rev (entered (new_events s s')).
Proof.
  unfold main. destruct (falsy (getenv env "OPENAI_API_KEY" (world s))).
  - unfold bind, print, log, raise. simpl. intros H _. inversion H; subst.
    unfold new_events. simpl. now rewrite drop_app_length.
  - unfold bind at 1. unfold set_self at 1. intros H Ho.
    destruct (fun Hfresh => run_client_releases _ _ _ _ _ Hfresh H Ho) as [Hrel _];
      [reflexivity | exact Hrel].
Qed.


End Properties.

(** * Further properties of the client *)

Section ClientExtras.

Context {World : Type} (env : Env World).

Implicit Types (s : St World) (tc : ToolCall).

(** *** Names *)

(** X1: the prefixed names of two different servers never coincide,
    whatever the tools are called (underscores and digits in tool
    names included): ["server" + str(i) + "_" + name] determines both
    the server index and the tool name. *)
Theorem prefixed_names_of_distinct_servers_differ i j name1 name2 :
  i <> j -> prefixed (server_id i) name1 <> prefixed (server_id j) name2.
Proof. intros Hij H. apply prefixed_inj in H as [Hi _]. contradiction. Qed.

(** *** The SSE initializer *)

Lemma initialize_from_sse_eq sse_client i sources s :
  initialize_from_sse env sse_client i sources s
  = initialize_from (with_connector env sse_client) i sources s.
Proof.
  revert i s. induction sources as [|src sources IH]; intros i s; [reflexivity|].
  simpl. unfold bind.
  change (connect_server_sse env sse_client i src s)
    with (connect_server (with_connector env sse_client) i src s).
  destruct (connect_server (with_connector env sse_client) i src s) as [[[]|e|] s1];
    [apply IH | reflexivity | reflexivity].
Qed.

(** X2: [initialize_sessions_sse] is [initialize_sessions] with the
    SSE connector in the place of the subprocess connector: on every
    state both give the same outcome, the same client fields and the
    same events. *)
Theorem sse_initialization_differs_in_connector_only sse_client s :
  initialize_sessions_sse env sse_client s
  = initialize_sessions (with_connector env sse_client) s.
Proof.
  unfold initialize_sessions_sse, initialize_sessions, bind, get_self.
  apply initialize_from_sse_eq.
Qed.


(** *** Cleanup on its own *)



(** *** The sessions dictionary and the catalog *)

Lemma server_id_inj i j : server_id i = server_id j -> i = j.
Proof.
  unfold server_id. cbn [String.append]. intros H. injection H as H.
  now apply str_nat_inj.
Qed.

Lemma dict_set_absent {V} (k : string) (v : V) (d : list (string * V)) :
  k ∉ map fst d -> dict_set k v d = d ++ [(k, v)].
Proof.
  induction d as [|[k' v'] d IH]; intros Hnot; simpl; [reflexivity|].
  destruct (String.eqb_spec k k') as [->|Hne].
  - exfalso. apply Hnot. simpl. apply list_elem_of_here.
  - rewrite IH; [reflexivity|]. intros Hin. apply Hnot. simpl.
    now apply list_elem_of_further.
Qed.

Lemma connect_server_sessions i server_source s s' :
  connect_server env i server_source s = (Ret tt, s') ->
  exists session tools evs,
    trace s' = trace s ++ evs /\
    advertised evs = [(session, tools)] /\
    sessions (self s') = dict_set (server_id i) session (sessions (self s)).
Proof.
  unfold connect_server, bind, enter_async_context, await, set_session, print, log.
  destruct (stdio_client env server_source (world s)) as [[e|t] w1]; simpl;
    [discriminate|].
  destruct (client_session env t w1) as [[e|session] w2]; simpl; [discriminate|].
  destruct (session_initialize env session w2) as [[e|[]] w3]; simpl; [discriminate|].
  destruct (list_tools env session w3) as [[e|tools] w4]; simpl; [discriminate|].
  rewrite register_tools_spec. simpl.
  intros H. inversion H; subst. exists session, tools. eexists. simpl.
  split; [rewrite <- !app_assoc; reflexivity|]. split; reflexivity.
Qed.

Lemma initialize_from_sessions i sources s s' :
  (forall j, i <= j -> server_id j ∉ map fst (sessions (self s))) ->
  initialize_from env i sources s = (Ret tt, s') ->
  exists evs,
    trace s' = trace s ++ evs /\
    sessions (self s') = sessions (self s) ++ sessions_from i (advertised evs).
Proof.
  revert i s. induction sources as [|src sources IH]; intros i s Hfree; simpl.
  - intros H. inversion H; subst. exists []. simpl. now rewrite !app_nil_r.
  - unfold bind.
    destruct (connect_server env i src s) as [[[]|e|] s1] eqn:Hc; try discriminate.
    destruct (connect_server_sessions _ _ _ _ Hc) as (session & tools & evs1 & T1 & A1 & S1).
    rewrite dict_set_absent in S1 by (apply Hfree; lia).
    intros H. destruct (IH (S i) s1) as (evs2 & T2 & S2); [|exact H|].
    { intros j Hj. rewrite S1, map_app. simpl. intros Hin.
      apply elem_of_app in Hin as [Hin|Hin].
      - revert Hin. apply Hfree. lia.
      - apply list_elem_of_singleton in Hin. apply server_id_inj in Hin. lia. }
    exists (evs1 ++ evs2). rewrite advertised_app, A1. simpl. split.
    + now rewrite T2, T1, app_assoc.
    + rewrite S2, S1. now rewrite <- app_assoc.
Qed.

Lemma sessions_listed_in_configuration_order_aux s s' :
  sessions (self s) = [] ->
  initialize_sessions env s = (Ret tt, s') ->
  sessions (self s') = sessions_from 0 (advertised (new_events s s')).
Proof.
  intros Hempty Hinit. unfold initialize_sessions in Hinit.
  rewrite (bind_ret _ _ s (self s) s) in Hinit by reflexivity.
  destruct (initialize_from_sessions 0 (server_sources (self s)) s s')
    as (evs & T & S); [|exact Hinit|].
  - intros j _. rewrite Hempty. simpl. apply not_elem_of_nil.
  - rewrite (new_events_app _ _ _ T), S, Hempty. reflexivity.
Qed.

(** X5: after [initialize_sessions] has returned on a client whose
    [sessions] dictionary was empty, the dictionary lists the servers
    in the order of [server_sources], under the keys [server0],
    [server1], ..., each with the session that answered [list_tools()]
    for that server. *)
Theorem sessions_listed_in_configuration_order s s' :
  sessions (self s) = [] ->
  initialize_sessions env s = (Ret tt, s') ->
  sessions (self s') = sessions_from 0 (advertised (new_events s s')).
Proof. exact (sessions_listed_in_configuration_order_aux s s'). Qed.

Lemma collect_tools_catalog i adv acc s cat s' :
  collect_tools env (sessions_from i adv) acc s = (Ret cat, s') ->
  exists evs,
    trace s' = trace s ++ evs /\
    map fst (advertised evs) = map fst adv /\
    cat = acc ++ catalog_from i (advertised evs).
Proof.
  revert i acc s. induction adv as [|[session tools0] adv IH]; intros i acc s; simpl.
  - intros H. inversion H; subst. exists []. simpl. now rewrite !app_nil_r.
  - unfold bind, await.
    destruct (list_tools env session (world s)) as [[e|tools] w]; [discriminate|].
    intros H. destruct (IH _ _ _ H) as (evs & T & F & C). simpl in T.
    exists (EvListTools session (inr tools) :: evs). simpl. split; [|split].
    + rewrite T. now rewrite <- app_assoc.
    + now rewrite F.
    + rewrite C. now rewrite <- app_assoc.
Qed.

Lemma catalog_from_names i adv :
  map spec_name (catalog_from i adv) = map fst (entries_from i adv).
Proof.
  revert i. induction adv as [|[session tools] adv IH]; intros i; simpl; [reflexivity|].
  rewrite !map_app, IH. f_equal. unfold server_entries. now rewrite !map_map.
Qed.

(** X6: on a client initialized from empty dictionaries, the catalog
    [process_query] collects offers exactly the names [tool_mapping]
    resolves, as long as every server answers [list_tools()] as it did
    during the initialization: a name the model can be shown is a
    registered key, and every registered key is shown. *)
Theorem catalog_offers_exactly_the_registered_names s s1 cat s2 :
  sessions (self s) = [] ->
  tool_mapping (self s) = ∅ ->
  initialize_sessions env s = (Ret tt, s1) ->
  collect_tools env (sessions (self s1)) [] s1 = (Ret cat, s2) ->
  advertised (new_events s1 s2) = advertised (new_events s s1) ->
  forall key,
    key ∈ map spec_name cat <-> is_Some (tool_mapping (self s1) !! key).
Proof.
  intros Hs Hm Hinit Hcollect Hsame key.
  pose proof Hinit as Hinit'. unfold initialize_sessions in Hinit'.
  rewrite (bind_ret _ _ s (self s) s) in Hinit' by reflexivity.
  destruct (initialize_from_ret _ _ _ _ _ Hinit') as (evs & T & _ & Hmap).
  rewrite Hm in Hmap.
  rewrite (sessions_listed_in_configuration_order_aux s s1 Hs Hinit) in Hcollect.
  destruct (collect_tools_catalog _ _ _ _ _ _ Hcollect) as (evs2 & T2 & _ & C).
  rewrite (new_events_app _ _ _ T2) in Hsame. rewrite Hsame in C.
  simpl in C. subst cat.
  rewrite catalog_from_names, Hmap, (new_events_app _ _ _ T).
  symmetry. apply insert_all_is_Some.
Qed.

(** *** What a query sends and calls *)

Lemma paired_app l1 l2 : paired l1 -> paired l2 -> paired (l1 ++ l2).
Proof. induction 1; simpl; [auto|]. intros H2. constructor. auto. Qed.

Lemma conversation_of_records query messages id name arguments content :
  conversation_of query messages ->
  conversation_of query
    (messages ++ [AssistantToolCall id name arguments; ToolMessage id content]).
Proof.
  intros (records & -> & Hp). eexists. split; [reflexivity|].
  apply paired_app; [exact Hp|]. repeat constructor.
Qed.

Lemma process_tool_call_conversation query tc messages final_text s ms ft s' :
  conversation_of query messages ->
  process_tool_call env tc messages final_text s = (Ret (ms, ft), s') ->
  conversation_of query ms.
Proof.
  intros Hconv. unfold process_tool_call.
  rewrite (bind_ret _ _ s (self s) s) by reflexivity.
  destruct (tool_mapping (self s) !! call_name tc) as [[session original]|].
  - unfold bind.
    destruct (loads env (call_arguments tc) s) as [[args|e|] s1]; try discriminate.
    destruct (call_tool_guarded env session original args s1) as [[result|e|] s2];
      try discriminate.
    destruct result as [content isError|items]; simpl; [|discriminate].
    intros H. inversion H; subst. now apply conversation_of_records.
  - unfold bind, print, log, ret. simpl. intros H. inversion H; subst. exact Hconv.
Qed.

Lemma for_tool_calls_conversation query tcs messages final_text s ms ft s' :
  conversation_of query messages ->
  for_tool_calls env tcs messages final_text s = (Ret (ms, ft), s') ->
  conversation_of query ms.
Proof.
  revert messages final_text s. induction tcs as [|tc tcs IH];
    intros messages final_text s Hconv; simpl.
  - intros H. inversion H; subst. exact Hconv.
  - unfold bind.
    destruct (process_tool_call env tc messages final_text s) as [[[m1 f1]|e|] s1] eqn:Hp;
      try discriminate.
    simpl. apply IH. eapply process_tool_call_conversation; eauto.
Qed.

Lemma tool_event_conversation query ev : tool_event ev -> conversation_event query ev.
Proof. now destruct ev. Qed.

Lemma while_body_conversation query tcs messages final_text tools s o s' :
  conversation_of query messages ->
  while_body env tcs messages final_text tools s = (o, s') ->
  extends (conversation_event query) s s' /\
  match o with
  | Ret r => conversation_of query (snd (fst r))
  | _ => True
  end.
Proof.
  intros Hconv. unfold while_body. unfold bind at 1.
  destruct (for_tool_calls env tcs messages final_text s) as [o1 s1] eqn:Hf.
  pose proof (extends_weaken _ _ _ _ (tool_event_conversation query)
                (for_tool_calls_extends env _ _ _ _ _ _ Hf)) as Hext1.
  destruct o1 as [[ms ft]|e|];
    [| intros H; inversion H; subst; auto | intros H; inversion H; subst; auto].
  pose proof (for_tool_calls_conversation _ _ _ _ _ _ _ _ Hconv Hf) as Hconv'.
  simpl. unfold bind.
  destruct (create_message env ms tools s1) as [o2 s2] eqn:Hm.
  destruct (create_message_spec env _ _ _ _ _ Hm) as [Hself (r & T & _)].
  assert (Hext2 : extends (conversation_event query) s1 s2).
  { split; [exact Hself|]. exists [EvCreate ms tools r]. split; [exact T|].
    constructor; [exact Hconv' | constructor]. }
  pose proof (extends_trans _ _ _ _ Hext1 Hext2) as Hext.
  destruct o2 as [m|e|]; intros H; inversion H; subst; simpl; auto.
Qed.

Lemma while_tool_calls_conversation query fuel tools message messages final_text s o s' :
  conversation_of query messages ->
  while_tool_calls env fuel message messages final_text tools s = (o, s') ->
  extends (conversation_event query) s s'.
Proof.
  revert message messages final_text s.
  induction fuel as [|fuel IH]; intros message messages final_text s Hconv; simpl;
    destruct (msg_tool_calls message) as [[|tc rest]|];
    try (intros H; inversion H; apply extends_refl).
  unfold bind.
  destruct (while_body env (tc :: rest) messages final_text tools s) as [o1 s1] eqn:Hb.
  destruct (while_body_conversation _ _ _ _ _ _ _ _ Hconv Hb) as [Hext Hret].
  destruct o1 as [r|e|];
    [| intros H; inversion H; subst; exact Hext | intros H; inversion H; subst; exact Hext].
  intros H. eapply extends_trans; [exact Hext|]. eapply IH; eauto.
Qed.

Lemma conversations_conversation_events query evs :
  Forall (conversation_event query) evs ->
  Forall (conversation_of query) (conversations evs).
Proof.
  induction 1 as [|ev evs Hev _ IH]; simpl; [constructor|].
  destruct ev; simpl in *; auto.
Qed.

Lemma list_tools_conversation query ev :
  is_list_tools ev = true -> conversation_event query ev.
Proof. now destruct ev. Qed.

(** X7: every message list [process_query] sends to the model, on the
    first call and on every later turn, starts with the user's query
    and goes on with assistant tool-call records each followed at once
    by the tool message carrying the same call id; nothing else is
    ever put in a conversation. *)
Theorem conversations_are_query_then_paired_records fuel query s :
  Forall (conversation_of query)
         (conversations (new_events s (snd (process_query env fuel query s)))).
Proof.
  apply conversations_conversation_events.
  destruct (process_query env fuel query s) as [o s'] eqn:Hq. cbn [snd].
  apply extends_new_events. revert Hq.
  unfold process_query. rewrite (bind_ret _ _ s (self s) s) by reflexivity.
  apply bind_extends.
  - intros o1 s1 H. eapply extends_weaken; [apply (list_tools_conversation query)|].
    eapply collect_tools_extends; exact H.
  - intros tools s1 o2 s2. unfold bind.
    destruct (create_message env [UserMessage query] tools s1) as [o3 s3] eqn:Hm.
    assert (Hconv : conversation_of query [UserMessage query]).
    { exists []. split; [reflexivity | constructor]. }
    destruct (create_message_spec env _ _ _ _ _ Hm) as [Hself (r & T & _)].
    assert (Hext : extends (conversation_event query) s1 s3).
    { split; [exact Hself|]. exists [EvCreate [UserMessage query] tools r].
      split; [exact T|]. constructor; [exact Hconv | constructor]. }
    destruct o3 as [message|e|];
      [| intros H; inversion H; subst; exact Hext
       | intros H; inversion H; subst; exact Hext].
    intros H. eapply extends_trans; [exact Hext|].
    eapply while_tool_calls_conversation; eauto.
Qed.

Lemma process_tool_call_dispatch c tc messages final_text s o s' :
  self s = c ->
  process_tool_call env tc messages final_text s = (o, s') ->
  extends (dispatch_event c) s s'.
Proof.
  intros Hc. unfold process_tool_call.
  rewrite (bind_ret _ _ s (self s) s) by reflexivity.
  destruct (tool_mapping (self s) !! call_name tc) as [[session original]|] eqn:Hl.
  - apply bind_extends.
    { intros o1 s1. unfold loads.
      destruct (json_loads env (call_arguments tc)); intros H; inversion H;
        apply extends_refl. }
    intros args s1 o2 s2. apply bind_extends.
    { intros o1 s3. unfold call_tool_guarded. apply try_except_extends.
      - intros o3 s4. apply await_extends. intros r. simpl.
        exists (call_name tc). now rewrite <- Hc.
      - intros e s4 o3 s5. apply bind_extends.
        + intros o4 s6. now apply print_extends.
        + intros [] s6 o4 s7 H. inversion H. apply extends_refl. }
    intros result s3 o3 s4. apply bind_extends.
    { intros o1 s5 H. rewrite (result_content_state _ _ _ _ H). apply extends_refl. }
    intros cnt s5 o4 s6. apply bind_extends.
    { intros o1 s7 H. rewrite (result_content_state _ _ _ _ H). apply extends_refl. }
    intros cnt' s7 o5 s8 H. inversion H. apply extends_refl.
  - apply bind_extends.
    + intros o1 s1. now apply print_extends.
    + intros a s1 o2 s2 H. inversion H. apply extends_refl.
Qed.

Lemma for_tool_calls_dispatch c tcs messages final_text s o s' :
  self s = c ->
  for_tool_calls env tcs messages final_text s = (o, s') ->
  extends (dispatch_event c) s s'.
Proof.
  revert messages final_text s. induction tcs as [|tc tcs IH];
    intros messages final_text s Hc; simpl.
  - intros H. inversion H. apply extends_refl.
  - unfold bind.
    destruct (process_tool_call env tc messages final_text s) as [o1 s1] eqn:Hp.
    pose proof (process_tool_call_dispatch _ _ _ _ _ _ _ Hc Hp) as Hext.
    destruct o1 as [r|e|];
      [| intros H; inversion H; subst; exact Hext
       | intros H; inversion H; subst; exact Hext].
    intros H. eapply extends_trans; [exact Hext|].
    eapply IH; [|exact H]. destruct Hext as [Hself _]. congruence.
Qed.

Lemma create_message_dispatch c messages tools s o s' :
  create_message env messages tools s = (o, s') ->
  extends (dispatch_event c) s s'.
Proof.
  intros H. destruct (create_message_spec env _ _ _ _ _ H) as [Hs (r & T & _)].
  split; [exact Hs|]. exists [EvCreate messages tools r]. split; [exact T|].
  constructor; [exact I | constructor].
Qed.

Lemma while_body_dispatch c tcs messages final_text tools s o s' :
  self s = c ->
  while_body env tcs messages final_text tools s = (o, s') ->
  extends (dispatch_event c) s s'.
Proof.
  intros Hc. unfold while_body. apply bind_extends.
  - intros o1 s1. now apply for_tool_calls_dispatch.
  - intros r s1 o2 s2. apply bind_extends.
    + intros o1 s3. apply create_message_dispatch.
    + intros a s3 o3 s4 H. inversion H. apply extends_refl.
Qed.

Lemma while_tool_calls_dispatch c fuel tools message messages final_text s o s' :
  self s = c ->
  while_tool_calls env fuel message messages final_text tools s = (o, s') ->
  extends (dispatch_event c) s s'.
Proof.
  revert message messages final_text s.
  induction fuel as [|fuel IH]; intros message messages final_text s Hc; simpl;
    destruct (msg_tool_calls message) as [[|tc rest]|];
    try (intros H; inversion H; apply extends_refl).
  unfold bind.
  destruct (while_body env (tc :: rest) messages final_text tools s) as [o1 s1] eqn:Hb.
  pose proof (while_body_dispatch _ _ _ _ _ _ _ _ Hc Hb) as Hext.
  destruct o1 as [r|e|];
    [| intros H; inversion H; subst; exact Hext
     | intros H; inversion H; subst; exact Hext].
  intros H. eapply extends_trans; [exact Hext|].
  eapply IH; [|exact H]. destruct Hext as [Hself _]. congruence.
Qed.

Lemma list_tools_dispatch c ev : is_list_tools ev = true -> dispatch_event c ev.
Proof. now destruct ev. Qed.

Lemma dispatched_dispatch_events c evs :
  Forall (dispatch_event c) evs -> Forall (registered c) (dispatched evs).
Proof.
  induction 1 as [|ev evs Hev _ IH]; simpl; [constructor|].
  destruct ev; simpl in *; auto.
Qed.

(** X8: during [process_query] a tool is only ever called on a session
    and under an original name that [tool_mapping] holds as the value
    of some key: no call goes to a pair that was not registered,
    whatever names the model requests. *)
Theorem tool_calls_go_to_registered_pairs_only fuel query s :
  Forall (registered (self s))
         (dispatched (new_events s (snd (process_query env fuel query s)))).
Proof.
  apply dispatched_dispatch_events.
  destruct (process_query env fuel query s) as [o s'] eqn:Hq. cbn [snd].
  apply extends_new_events. revert Hq.
  unfold process_query. rewrite (bind_ret _ _ s (self s) s) by reflexivity.
  unfold bind at 1.
  destruct (collect_tools env (sessions (self s)) [] s) as [o1 s1] eqn:Hcol.
  pose proof (extends_weaken _ _ _ _ (list_tools_dispatch (self s))
                (collect_tools_extends env _ _ _ _ _ Hcol)) as Hext1.
  destruct o1 as [tools|e|];
    [| intros H; inversion H; subst; exact Hext1
     | intros H; inversion H; subst; exact Hext1].
  unfold bind.
  destruct (create_message env [UserMessage query] tools s1) as [o2 s2] eqn:Hm.
  pose proof (create_message_dispatch (self s) _ _ _ _ _ Hm) as Hext2.
  pose proof (extends_trans _ _ _ _ Hext1 Hext2) as Hext.
  destruct o2 as [message|e|];
    [| intros H; inversion H; subst; exact Hext
     | intros H; inversion H; subst; exact Hext].
  intros H. eapply extends_trans; [exact Hext|].
  eapply while_tool_calls_dispatch; [|exact H]. now destruct Hext.
Qed.

(** *** What a query leaves alone *)

Lemma listed_app evs1 evs2 : listed (evs1 ++ evs2) = listed evs1 ++ listed evs2.
Proof.
  induction evs1 as [|ev evs1 IH]; simpl; [reflexivity|].
  destruct ev; simpl; now rewrite ?IH.
Qed.

Lemma listed_loop tools evs : Forall (loop_event tools) evs -> listed evs = [].
Proof. induction 1 as [|ev evs Hev _ IH]; [reflexivity|]. now destruct ev. Qed.

Lemma collect_tools_listed items acc s o s' :
  collect_tools env items acc s = (o, s') ->
  exists evs,
    trace s' = trace s ++ evs /\
    listed evs `prefix_of` map snd items /\
    (forall cat, o = Ret cat -> listed evs = map snd items).
Proof.
  revert acc s. induction items as [|[sid session] items IH]; intros acc s; simpl.
  - intros H. inversion H; subst. exists []. simpl. rewrite app_nil_r.
    split; [reflexivity|]. split; [reflexivity | auto].
  - unfold bind, await.
    destruct (list_tools env session (world s)) as [[e|tools] w].
    + intros H. inversion H; subst. exists [EvListTools session (inl e)]. simpl.
      split; [reflexivity|]. split; [|discriminate].
      exists (map snd items). reflexivity.
    + intros H. destruct (IH _ _ H) as (evs & T & P & R). simpl in T.
      exists (EvListTools session (inr tools) :: evs). simpl. split; [|split].
      * rewrite T. now rewrite <- app_assoc.
      * now apply prefix_cons.
      * intros cat Hcat. now rewrite (R cat Hcat).
Qed.

Lemma list_tools_query_event ev : is_list_tools ev = true -> query_event ev.
Proof. now destruct ev. Qed.

Lemma loop_event_query_event tools ev : loop_event tools ev -> query_event ev.
Proof. now destruct ev. Qed.

(** X9: [process_query] changes no field of the client (sessions,
    tool mapping, exit stack); all it does outside is list tools, ask
    the model, call tools and print; and it calls [list_tools()] on
    the sessions of [self.sessions] in dictionary order, each at most
    once, stopping at the first one that fails. *)
Theorem process_query_leaves_the_client_unchanged fuel query s :
  let s' := snd (process_query env fuel query s) in
  self s' = self s /\
  Forall query_event (new_events s s') /\
  listed (new_events s s') `prefix_of` map snd (sessions (self s)).
Proof.
  intros s'. subst s'.
  destruct (process_query env fuel query s) as [o s'] eqn:Hq. cbn [snd].
  unfold process_query in Hq. rewrite (bind_ret _ _ s (self s) s) in Hq by reflexivity.
  unfold bind at 1 in Hq.
  destruct (collect_tools env (sessions (self s)) [] s) as [o1 s1] eqn:Hcol.
  destruct (collect_tools_listed _ _ _ _ _ Hcol) as (evs1 & T1 & P1 & _).
  destruct (collect_tools_extends env _ _ _ _ _ Hcol) as [S1 (evs1' & T1' & F1)].
  assert (evs1' = evs1) as -> by (rewrite T1 in T1'; now apply app_inv_head in T1').
  assert (Hstop : s' = s1 ->
                  self s' = self s /\ Forall query_event (new_events s s') /\
                  listed (new_events s s') `prefix_of` map snd (sessions (self s))).
  { intros ->. rewrite (new_events_app _ _ _ T1). split; [exact S1|]. split; [|exact P1].
    eapply Forall_impl; [exact F1|]. apply list_tools_query_event. }
  destruct o1 as [tools|e|];
    [| inversion Hq; subst; now apply Hstop | inversion Hq; subst; now apply Hstop].
  clear Hstop.
  assert (Hloop : extends (loop_event tools) s1 s').
  { revert Hq. apply bind_extends.
    - intros o2 s2. apply create_message_extends.
    - intros message s2 o3 s3. apply while_tool_calls_extends. }
  destruct Hloop as [S2 (evs2 & T2 & F2)].
  rewrite (new_events_app s s' (evs1 ++ evs2)) by (now rewrite T2, T1, app_assoc).
  split; [congruence|]. split.
  - apply Forall_app. split.
    + eapply Forall_impl; [exact F1|]. apply list_tools_query_event.
    + eapply Forall_impl; [exact F2|]. apply loop_event_query_event.
  - now rewrite listed_app, (listed_loop _ _ F2), app_nil_r.
Qed.

(** *** The chat loop *)

(** One prompt of the loop: lines 95-102. *)
Lemma chat_prompt_outcomes fuel s o s1 :
  try_except
    (chat_turn env fuel)
    (fun e =>
       print ("
发生错误: " +:+ exc_text e) ;;;
       ret false) s = (o, s1) ->
  match o with
  | Ret true =>
      exists line,
        last (trace s1) = Some (EvInput (inr line)) /\
        str_lower env (str_strip env line) = "quit"
  | Ret false => True
  | Raise e => is_Exception (exc_class e) = false
  | OutOfFuel => True
  end.
Proof.
  unfold try_except, chat_turn, bind at 1, await.
  destruct (input env (world s)) as [[e|line] w].
  - destruct (is_Exception (exc_class e)) eqn:He.
    + unfold bind, print, log, ret. intros H. inversion H; subst. exact I.
    + intros H. inversion H; subst. exact He.
  - destruct (String.eqb_spec (str_lower env (str_strip env line)) "quit") as [Hq|Hq].
    + intros H. inversion H; subst. exists line. simpl. split; [apply last_snoc | exact Hq].
    + unfold bind at 1.
      destruct (process_query env fuel (str_strip env line) _) as [[response|e|] s2].
      * unfold bind, print, log, ret. intros H. inversion H; subst. exact I.
      * destruct (is_Exception (exc_class e)) eqn:He.
        -- unfold bind, print, log, ret. intros H. inversion H; subst. exact I.
        -- intros H. inversion H; subst. exact He.
      * intros H. inversion H; subst. exact I.
Qed.

(** X10: [chat_loop] returns only by [quit]: when it returns, the last
    thing that happened is that a line was read which, stripped and
    lower-cased, is ["quit"]; no query was processed for that line. *)
Theorem chat_loop_returns_only_on_quit fuel turns s s' :
  chat_loop env fuel turns s = (Ret tt, s') ->
  exists line,
    last (trace s') = Some (EvInput (inr line)) /\
    str_lower env (str_strip env line) = "quit".
Proof.
  rewrite chat_loop_banner. generalize (after_banner s). clear s.
  induction turns as [|turns IH]; intros s; simpl; [discriminate|].
  unfold bind at 1.
  match goal with
  | |- context [try_except ?b ?h s] => destruct (try_except b h s) as [o1 s1] eqn:Ht
  end.
  pose proof (chat_prompt_outcomes _ _ _ _ Ht) as Hp.
  destruct o1 as [[|]|e|]; try discriminate.
  - intros H. inversion H; subst. exact Hp.
  - apply IH.
Qed.

Lemma chat_while_raises fuel turns s e s' :
  chat_while env fuel turns s = (Raise e, s') ->
  is_Exception (exc_class e) = false.
Proof.
  revert s. induction turns as [|turns IH]; intros s; simpl; [discriminate|].
  unfold bind at 1.
  match goal with
  | |- context [try_except ?b ?h s] => destruct (try_except b h s) as [o1 s1] eqn:Ht
  end.
  pose proof (chat_prompt_outcomes _ _ _ _ Ht) as Hp.
  destruct o1 as [[|]|e1|]; try discriminate.
  - apply IH.
  - intros H. inversion H; subst. exact Hp.
Qed.

(** Every iteration starts by reading a line. *)
Lemma chat_while_prompts fuel turns s :
  trace s ++ [EvInput (fst (input env (world s)))]
    `prefix_of` trace (snd (chat_while env fuel (S turns) s)).
Proof.
  destruct (chat_while env fuel (S turns) s) as [o s'] eqn:H. simpl in H.
  unfold bind at 1 in H.
  match type of H with
  | context [try_except ?b ?h s] => destruct (try_except b h s) as [o1 s1] eqn:Ht
  end.
  set (s_in := {| world := snd (input env (world s));
                  trace := trace s ++ [EvInput (fst (input env (world s)))];
                  self := self s |}).
  assert (H1 : extends quiet s_in s1).
  { revert Ht. unfold try_except, chat_turn, bind at 1, await. unfold s_in.
    destruct (input env (world s)) as [[e|line] w]; cbn [fst snd].
    - destruct (is_Exception (exc_class e)).
      + apply bind_extends.
        * intros o2 s2. now apply print_extends.
        * intros [] s2 o2 s3 E. inversion E. apply extends_refl.
      + intros E. inversion E. apply extends_refl.
    - match goal with
      | |- (match ?body ?st with _ => _ end) = _ -> _ =>
          change (try_except body
                    (fun e => print ("
发生错误: " +:+ exc_text e) ;;; ret false) st = (o1, s1) ->
                  extends quiet st s1)
      end.
      apply try_except_extends.
      + intros o2 s2.
        destruct (String.eqb _ "quit"); [intros E; inversion E; apply extends_refl|].
        apply bind_extends; [intros o4 s5; apply process_query_quiet|].
        intros response s5 o4 s6. apply bind_extends.
        { intros o5 s7. now apply print_extends. }
        intros [] s7 o5 s8 E. inversion E. apply extends_refl.
      + intros e s2 o2 s3. apply bind_extends.
        * intros o3 s4. now apply print_extends.
        * intros [] s4 o3 s5 E. inversion E. apply extends_refl. }
  assert (H2 : extends quiet s1 s').
  { destruct o1 as [[|]|e1|]; try (inversion H; subst; apply extends_refl).
    eapply chat_while_quiet. exact H. }
  destruct H1 as [_ (evs1 & T1 & _)]. destruct H2 as [_ (evs2 & T2 & _)].
  exists (evs1 ++ evs2). simpl. rewrite T2, T1. unfold s_in. simpl.
  now rewrite <- !app_assoc.
Qed.

(** X11: no exception that derives from [Exception] leaves
    [chat_loop]; only exceptions outside [Exception] (such as
    [KeyboardInterrupt]) propagate.  When an iteration of the loop
    raises an [Exception], in [input()] or in [process_query], the
    line ["发生错误: " + str(e)] is printed and the loop goes on from
    there with its next iteration, which starts by prompting again. *)
Theorem chat_loop_contains_exceptions fuel turns s :
  (forall e s',
     chat_loop env fuel turns s = (Raise e, s') ->
     is_Exception (exc_class e) = false) /\
  (forall e s1,
     chat_turn env fuel s = (Raise e, s1) ->
     is_Exception (exc_class e) = true ->
     let s2 := {| world := world s1;
                  trace := trace s1 ++ [EvPrint ("
发生错误: " +:+ exc_text e)];
                  self := self s1 |} in
     chat_while env fuel (S turns) s = chat_while env fuel turns s2 /\
     trace s2 ++ [EvInput (fst (input env (world s1)))]
       `prefix_of` trace (snd (chat_while env fuel (S (S turns)) s))).
Proof.
  split.
  - intros e s'. rewrite chat_loop_banner. apply chat_while_raises.
  - intros e s1 Hturn He s2.
    assert (Hstep : forall n, chat_while env fuel (S n) s = chat_while env fuel n s2).
    { intros n. simpl. unfold bind at 1, try_except. rewrite Hturn, He.
      unfold bind at 1, print, log, ret. reflexivity. }
    split; [apply Hstep|].
    rewrite Hstep. apply (chat_while_prompts fuel turns s2).
Qed.


(** *** [main] *)


End ClientExtras.

(** * Properties of the weather server (weather.py) *)

Module WeatherServerFacts.

Import Py WeatherServer.

Section Facts.

Context {World : Type} (net : Net World).

Implicit Types (s : State World).

Lemma new_calls_app s s' cs : calls s' = calls s ++ cs -> new_calls s s' = cs.
Proof. intros H. unfold new_calls. rewrite H. apply drop_app_length. Qed.

(** X14: [make_nws_request] either fails to open its HTTP client and
    does nothing else, or makes exactly one GET, to the URL it was
    given, with the [User-Agent] and [Accept] headers and a timeout of
    30 seconds, and then closes the client, whatever the GET did. *)
Theorem request_opens_gets_once_and_closes url s :
  let s' := snd (make_nws_request net url s) in
  (exists e, new_calls s s' = [ClientOpen (Some e)]) \/
  (exists g c,
     new_calls s s' =
       [ClientOpen None;
        ClientGet url [("User-Agent", "weather-app/1.0"); ("Accept", "application/geo+json")]
                  (JFloat "30.0") g;
        ClientClose c]).
Proof.
  unfold make_nws_request, async_with, try_Exception, call, pure. simpl.
  destruct (client_open net (outside s)) as [[e|] w1]; simpl.
  { left. exists e. now apply new_calls_app. }
  right.
  destruct (client_get net url nws_headers (JFloat "30.0") w1) as [[e|v] w2]; simpl.
  - destruct (is_Exception e); simpl;
      destruct (client_close net w2) as [[e'|] w3]; simpl;
      eexists _, _; apply new_calls_app; simpl; rewrite <- !app_assoc; reflexivity.
  - destruct (client_close net w2) as [[e'|] w3]; simpl;
      eexists _, _; apply new_calls_app; simpl; rewrite <- !app_assoc; reflexivity.
Qed.

Lemma make_nws_request_run url s w1 g w2 w3 :
  client_open net (outside s) = (None, w1) ->
  client_get net url nws_headers (JFloat "30.0") w1 = (g, w2) ->
  client_close net w2 = (None, w3) ->
  make_nws_request net url s
  = (match g with
     | inr v => inr v
     | inl e => if is_Exception e then inr JNull else inl e
     end,
     {| outside := w3;
        calls := calls s ++ [ClientOpen None;
                             ClientGet url nws_headers (JFloat "30.0") g;
                             ClientClose None] |}).
Proof.
  intros Ho Hg Hc.
  unfold make_nws_request, async_with, try_Exception, call, pure. simpl.
  rewrite Ho. simpl. rewrite Hg. simpl.
  destruct g as [e|v]; simpl.
  - destruct (is_Exception e); simpl; rewrite Hc; simpl;
      rewrite <- !app_assoc; reflexivity.
  - rewrite Hc. simpl. rewrite <- !app_assoc. reflexivity.
Qed.

(** X15: an exception that [make_nws_request] raises is never an
    [Exception] of the GET: it is what opening or closing the client
    raised, or it does not derive from [Exception]. *)
Theorem request_raises_no_Exception_of_the_get url s e s' :
  make_nws_request net url s = (inl e, s') ->
  In (ClientOpen (Some e)) (new_calls s s') \/
  In (ClientClose (Some e)) (new_calls s s') \/
  is_Exception e = false.
Proof.
  unfold make_nws_request, async_with, try_Exception, call, pure. simpl.
  destruct (client_open net (outside s)) as [[e0|] w1]; simpl.
  { intros H. inversion H; subst. left.
    rewrite (new_calls_app _ _ [ClientOpen (Some e)]) by reflexivity. now left. }
  destruct (client_get net url nws_headers (JFloat "30.0") w1) as [[e1|v] w2]; simpl.
  - destruct (is_Exception e1) eqn:He; simpl;
      destruct (client_close net w2) as [[e2|] w3]; simpl;
      intros H; inversion H; subst.
    + right. left. erewrite new_calls_app
        by (simpl; rewrite <- !app_assoc; reflexivity). simpl. auto.
    + right. left. erewrite new_calls_app
        by (simpl; rewrite <- !app_assoc; reflexivity). simpl. auto.
    + right. right. exact He.
  - destruct (client_close net w2) as [[e2|] w3]; simpl;
      intros H; inversion H; subst.
    right. left. erewrite new_calls_app
      by (simpl; rewrite <- !app_assoc; reflexivity). simpl. auto.
Qed.

Lemma format_alert_ok_iff feature :
  (exists text, format_alert net feature = inr text) <-> alert_feature feature.
Proof.
  split.
  - intros [text H]. unfold format_alert, getitem in H.
    destruct feature as [| | | | |items|members]; try discriminate.
    destruct (obj_get "properties" members) as [props|] eqn:Hp; [|discriminate].
    destruct props as [| | | | |items|pm]; try discriminate.
    exists members, pm. auto.
  - intros (members & props & -> & Hp).
    unfold format_alert, getitem, dict_get, ebind. rewrite Hp.
    destruct (obj_get "event" props), (obj_get "areaDesc" props),
      (obj_get "severity" props), (obj_get "description" props),
      (obj_get "instruction" props); eexists; reflexivity.
Qed.

(** X16: [format_alert] returns a text exactly for the features that
    are dictionaries with a dictionary under ["properties"]; for every
    other value it raises ([KeyError], [TypeError] or
    [AttributeError]), and no field of the properties is required. *)
Theorem format_alert_renders_exactly_alert_features feature :
  (exists text, format_alert net feature = inr text) <-> alert_feature feature.
Proof. exact (format_alert_ok_iff feature). Qed.

Lemma dict_get_obj props k d :
  dict_get (JObj props) k d = inr (default d (obj_get k props)).
Proof. unfold dict_get. now destruct (obj_get k props). Qed.

Lemma split_lines_nonempty text : split_lines text <> [].
Proof.
  destruct text as [|c rest]; simpl; [discriminate|].
  destruct (Ascii.eqb c "010"); [discriminate|].
  destruct (split_lines rest); discriminate.
Qed.

(** A line followed by a line break is the first line of the text. *)
Lemma split_lines_first line rest :
  split_lines line = [line] ->
  split_lines (line +:+ String "010" rest) = line :: split_lines rest.
Proof.
  induction line as [|c line IH]; simpl; [reflexivity|].
  destruct (Ascii.eqb c "010"); [discriminate|].
  destruct (split_lines line) as [|l more] eqn:Hl.
  - now destruct (split_lines_nonempty line).
  - intros H. injection H as -> ->. now rewrite IH.
Qed.

Lemma line_after_break t line rest :
  t = String "010" (line +:+ String "010" rest) ->
  split_lines line = [line] ->
  In line (tail (split_lines t)).
Proof.
  intros -> Hline. cbn [split_lines Ascii.eqb Bool.eqb tail].
  rewrite (split_lines_first _ _ Hline). now left.
Qed.

Lemma line_after_prefix pre t line :
  In line (tail (split_lines t)) ->
  In line (tail (split_lines (pre +:+ t))).
Proof.
  intros H. induction pre as [|c pre IH]; simpl; [exact H|].
  destruct (Ascii.eqb c "010"); simpl.
  - destruct (split_lines (pre +:+ t)); [contradiction | now right].
  - destruct (split_lines (pre +:+ t)); [contradiction | exact IH].
Qed.

Lemma in_tail {A} (x : A) (l : list A) : In x (tail l) -> In x l.
Proof. destruct l; simpl; auto. Qed.

(** X17: in the text of an alert a field that is present with the
    value [null] reads [None], not the placeholder: for every alert
    whose properties hold [null] under one of the five keys, the text
    has the line made of the indentation, the label of that key and
    [": None"]. *)
Theorem alert_field_null_reads_None key label members props :
  In (key, label) alert_labels ->
  obj_get "properties" members = Some (JObj props) ->
  obj_get key props = Some JNull ->
  exists text,
    format_alert net (JObj members) = inr text /\
    In (indent12 +:+ label +:+ ": None") (split_lines text).
Proof.
  intros Hin Hprops Hnull. unfold format_alert, getitem. rewrite Hprops.
  cbn [ebind]. rewrite !dict_get_obj. cbn [ebind].
  eexists. split; [reflexivity|].
  apply in_tail. simpl in Hin.
  destruct Hin as [Hk|[Hk|[Hk|[Hk|[Hk|[]]]]]]; injection Hk as <- <-;
    rewrite Hnull; cbn [default str];
    repeat first [ solve [ eapply line_after_break; reflexivity ]
                 | apply line_after_prefix ].
Qed.

(** X18: absent fields are rendered by their placeholders: leaving a
    field out of the properties gives the same text as giving it the
    placeholder's text. *)
Theorem alert_field_absent_reads_placeholder key placeholder members1 members2 rest :
  In (key, placeholder) alert_fields ->
  obj_get key rest = None ->
  obj_get "properties" members1 = Some (JObj rest) ->
  obj_get "properties" members2 = Some (JObj ((key, JStr placeholder) :: rest)) ->
  format_alert net (JObj members1) = format_alert net (JObj members2).
Proof.
  intros Hin Hnone H1 H2. unfold format_alert, getitem. rewrite H1, H2.
  simpl in Hin.
  destruct Hin as [Hk|[Hk|[Hk|[Hk|[Hk|[]]]]]]; injection Hk as <- <-;
    unfold dict_get; simpl; rewrite Hnone; reflexivity.
Qed.

(** X19: when the request of [get_alerts] fails with an [Exception]
    (and the HTTP client opens and closes normally), [get_alerts] does
    not raise: it returns the sentence saying that no alert data could
    be obtained, after one GET to
    [https://api.weather.gov/alerts/active/area/<state>]. *)
Theorem get_alerts_survives_failed_request state s w1 e w2 w3 :
  let url := JStr ("https://api.weather.gov/alerts/active/area/" +:+ state) in
  client_open net (outside s) = (None, w1) ->
  client_get net url nws_headers (JFloat "30.0") w1 = (inl e, w2) ->
  is_Exception e = true ->
  client_close net w2 = (None, w3) ->
  get_alerts net state s
  = (inr no_alert_data,
     {| outside := w3;
        calls := calls s ++ [ClientOpen None;
                             ClientGet url nws_headers (JFloat "30.0") (inl e);
                             ClientClose None] |}).
Proof.
  intros url Ho Hg He Hc. unfold get_alerts, tbind.
  change (JStr (NWS_API_BASE +:+ "/alerts/active/area/" +:+ state)) with url.
  rewrite (make_nws_request_run _ _ _ _ _ _ Ho Hg Hc), He. reflexivity.
Qed.

Lemma emap_ok_iff {A B} (f : A -> Exc + B) (l : list A) :
  (exists ys, emap f l = inr ys) <-> Forall (fun x => exists y, f x = inr y) l.
Proof.
  induction l as [|x l IH]; simpl.
  - split; [constructor | eauto].
  - split.
    + intros [ys H]. unfold ebind in H.
      destruct (f x) as [e|y] eqn:Hx; [discriminate|].
      destruct (emap f l) as [e|ys'] eqn:Hl; [discriminate|].
      constructor; [eauto | apply IH; eauto].
    + intros H. inversion H as [|? ? [y Hy] Hl]; subst.
      apply IH in Hl as [ys Hys]. unfold ebind. rewrite Hy, Hys. eauto.
Qed.

Lemma obj_get_nonempty k members v : obj_get k members = Some v -> members <> [].
Proof. destruct members; [discriminate | discriminate]. Qed.

(** X20: for an answer that is a dictionary with a ["features"] entry,
    [get_alerts] says that there is no active alert when the entry is
    empty (or any other false value); and when the entry is a
    non-empty list it returns a text exactly if every feature of the
    list is a dictionary with a dictionary under ["properties"]: one
    malformed feature makes the whole call raise. *)
Theorem alerts_of_features_entry members features :
  obj_get "features" members = Some features ->
  (truthy features = false -> alerts_of net (JObj members) = inr no_active_alerts) /\
  (forall items,
     features = JArr items -> items <> [] ->
     ((exists text, alerts_of net (JObj members) = inr text) <->
      Forall alert_feature items)).
Proof.
  intros Hf.
  assert (Hstart : alerts_of net (JObj members)
                   = if negb (truthy features) then inr no_active_alerts
                     else
                       let? items := iterate features in
                       let? alerts := emap (format_alert net) items in
                       inr (String.concat separator alerts)).
  { unfold alerts_of, contains, getitem. simpl.
    destruct members as [|m ms]; [discriminate|]. rewrite Hf. reflexivity. }
  split.
  - intros Ht. rewrite Hstart, Ht. reflexivity.
  - intros items -> Hne. rewrite Hstart.
    destruct items as [|x items]; [contradiction|]. cbn [truthy negb iterate ebind].
    assert (Hiff : Forall (fun x => exists y, format_alert net x = inr y) (x :: items)
                   <-> Forall alert_feature (x :: items))
      by (apply Forall_iff; intros y; apply format_alert_ok_iff).
    rewrite <- Hiff, <- emap_ok_iff. split.
    + intros [text H].
      destruct (emap (format_alert net) (x :: items)) as [e|ys]; [discriminate|]. eauto.
    + intros [ys H]. rewrite H. eauto.
Qed.

Lemma gets_app cs1 cs2 : gets (cs1 ++ cs2) = gets cs1 ++ gets cs2.
Proof.
  induction cs1 as [|c cs1 IH]; simpl; [reflexivity|].
  destruct c; simpl; now rewrite ?IH.
Qed.

(** What one request adds: no GET and an exception, or one GET whose
    answer is what is returned unless [None] is. *)
Lemma make_nws_request_gets url s r s1 :
  make_nws_request net url s = (r, s1) ->
  exists cs,
    calls s1 = calls s ++ cs /\
    ((gets cs = [] /\ exists e, r = inl e) \/
     (gets cs = [url] /\
      forall v, r = inr v ->
        v = JNull \/ In (ClientGet url nws_headers (JFloat "30.0") (inr v)) cs)).
Proof.
  unfold make_nws_request, async_with, try_Exception, call, pure. simpl.
  destruct (client_open net (outside s)) as [[e|] w1]; simpl.
  { intros H. inversion H; subst. eexists. split; [reflexivity|]. left. simpl. eauto. }
  destruct (client_get net url nws_headers (JFloat "30.0") w1) as [[e1|v] w2]; simpl.
  - destruct (is_Exception e1); simpl;
      destruct (client_close net w2) as [[e2|] w3]; simpl;
      intros H; inversion H; subst;
      (eexists; split; [simpl; rewrite <- !app_assoc; reflexivity|]);
      right; (split; [reflexivity|]); intros v Hv; inversion Hv; auto.
  - destruct (client_close net w2) as [[e2|] w3]; simpl;
      intros H; inversion H; subst;
      (eexists; split; [simpl; rewrite <- !app_assoc; reflexivity|]);
      right; (split; [reflexivity|]); intros v' Hv; inversion Hv; subst;
      right; simpl; auto.
Qed.

(** X21: [get_forecast] makes at most two GETs.  The first goes to
    [https://api.weather.gov/points/<latitude>,<longitude>]; a second
    one is made only after the first returned an answer, and it goes
    to whatever that answer holds under [properties] / [forecast]. *)
Theorem get_forecast_follows_the_forecast_link latitude longitude s :
  let points_url :=
    JStr ("https://api.weather.gov/points/" +:+ latitude +:+ "," +:+ longitude) in
  let cs := new_calls s (snd (get_forecast net latitude longitude s)) in
  gets cs = [] \/
  gets cs = [points_url] \/
  exists points properties forecast_url,
    gets cs = [points_url; forecast_url] /\
    In (ClientGet points_url nws_headers (JFloat "30.0") (inr points)) cs /\
    getitem points "properties" = inr properties /\
    getitem properties "forecast" = inr forecast_url.
Proof.
  intros points_url cs. subst cs. unfold get_forecast, tbind.
  change (JStr (NWS_API_BASE +:+ "/points/" +:+ latitude +:+ "," +:+ longitude))
    with points_url.
  destruct (make_nws_request net points_url s) as [r1 s1] eqn:H1.
  destruct (make_nws_request_gets _ _ _ _ H1) as (cs1 & T1 & [[G1 [e ->]] | [G1 V1]]).
  { left. cbv beta iota. cbn [snd]. now rewrite (new_calls_app _ _ _ T1). }
  destruct r1 as [e|points].
  { right. left. cbv beta iota. cbn [snd]. now rewrite (new_calls_app _ _ _ T1). }
  destruct (negb (truthy points)) eqn:Ht.
  { right. left. unfold pure. cbv beta iota. cbn [snd]. now rewrite (new_calls_app _ _ _ T1). }
  unfold lift, ebind.
  destruct (getitem points "properties") as [e|properties] eqn:Hp.
  { right. left. cbv beta iota. cbn [snd]. now rewrite (new_calls_app _ _ _ T1). }
  destruct (getitem properties "forecast") as [e|forecast_url] eqn:Hf.
  { right. left. cbv beta iota. cbn [snd]. now rewrite (new_calls_app _ _ _ T1). }
  destruct (make_nws_request net forecast_url s1) as [r2 s2] eqn:H2.
  destruct (make_nws_request_gets _ _ _ _ H2) as (cs2 & T2 & Hcs2).
  assert (Hin : In (ClientGet points_url nws_headers (JFloat "30.0") (inr points)) cs1).
  { destruct (V1 points eq_refl) as [-> | Hin]; [discriminate Ht | exact Hin]. }
  assert (Hcalls : forall s', calls s' = calls s2 ->
            new_calls s s' = cs1 ++ cs2).
  { intros s' Hs'. apply new_calls_app. now rewrite Hs', T2, T1, app_assoc. }
  assert (Hend : forall X, snd (match r2 with
                      | inr a =>
                          (if negb (truthy a) then pure no_forecast_data
                           else fun st => (X a, st)) s2
                      | inl e => (inl e, s2)
                      end) = s2).
  { intros X. destruct r2 as [e|a]; [reflexivity|]. now destruct (negb (truthy a)). }
  cbv beta iota. rewrite Hend, (Hcalls s2 eq_refl), gets_app, G1.
  destruct Hcs2 as [[G2 _] | [G2 _]]; rewrite G2.
  - right. left. reflexivity.
  - right. right. exists points, properties, forecast_url.
    split; [reflexivity|]. split; [|auto]. apply in_or_app. now left.
Qed.

(** X22: only the first five periods of a forecast are read: two
    answers whose period lists agree on their first five entries give
    the same result, so that nothing after the fifth period, malformed
    or not, shows or makes the call fail. *)
Theorem forecast_reads_first_five_periods data1 data2 properties1 properties2
    periods1 periods2 :
  getitem data1 "properties" = inr properties1 ->
  getitem properties1 "periods" = inr (JArr periods1) ->
  getitem data2 "properties" = inr properties2 ->
  getitem properties2 "periods" = inr (JArr periods2) ->
  take 5 periods1 = take 5 periods2 ->
  forecast_of net data1 = forecast_of net data2.
Proof.
  intros H1 P1 H2 P2 Hsame. unfold forecast_of, ebind.
  rewrite H1, P1, H2, P2. simpl. now rewrite Hsame.
Qed.

(** X23: a non-empty answer to the first request that has no
    ["properties"] entry is not reported by a sentence: [get_forecast]
    raises [KeyError('properties')] and makes no second request. *)
Theorem get_forecast_raises_on_answer_without_properties latitude longitude s
    w1 members w2 w3 :
  let points_url :=
    JStr ("https://api.weather.gov/points/" +:+ latitude +:+ "," +:+ longitude) in
  client_open net (outside s) = (None, w1) ->
  client_get net points_url nws_headers (JFloat "30.0") w1 = (inr (JObj members), w2) ->
  client_close net w2 = (None, w3) ->
  members <> [] ->
  obj_get "properties" members = None ->
  get_forecast net latitude longitude s
  = (inl (KeyError (JStr "properties")),
     {| outside := w3;
        calls := calls s ++ [ClientOpen None;
                             ClientGet points_url nws_headers (JFloat "30.0")
                                       (inr (JObj members));
                             ClientClose None] |}).
Proof.
  intros points_url Ho Hg Hc Hne Hnone. unfold get_forecast, tbind.
  change (JStr (NWS_API_BASE +:+ "/points/" +:+ latitude +:+ "," +:+ longitude))
    with points_url.
  rewrite (make_nws_request_run _ _ _ _ _ _ Ho Hg Hc).
  destruct members as [|m ms]; [contradiction|].
  cbn [truthy negb]. unfold lift, ebind, getitem. rewrite Hnone. reflexivity.
Qed.

End Facts.

End WeatherServerFacts.

(** * Properties of the AMap server (amap_server.py) *)

Module AmapServerFacts.

Import Py AmapServer.

Section Facts.

Context {World : Type} (net : Net World).

Implicit Types (s : State World).

Lemma new_calls_snoc s w c :
  new_calls s {| outside := w; calls := calls s ++ [c] |} = [c].
Proof. unfold new_calls. simpl. apply drop_app_length. Qed.

Lemma new_calls_same s : new_calls s s = [].
Proof. unfold new_calls. apply drop_all. Qed.

(** X24: [get_weather] validates before it touches the network.  A run
    that makes no request ends in a [ValueError]; a run that makes one
    makes exactly one, and only for a non-empty city with a non-empty
    [AMAP_MAPS_API_KEY], sending the key, the city,
    [extensions=all] and [output=json] with a timeout of 10 seconds. *)
Theorem get_weather_validates_before_requesting city s :
  let r := fst (get_weather net city s) in
  let s' := snd (get_weather net city s) in
  (new_calls s s' = [] /\ exists msg, r = inl (ValueError msg)) \/
  (exists key g,
     city <> "" /\
     os_getenv net "AMAP_MAPS_API_KEY" (outside s) = Some key /\ key <> "" /\
     new_calls s s' =
       [RequestsGet "https://restapi.amap.com/v3/weather/weatherInfo"
          [("key", key); ("city", city); ("extensions", "all"); ("output", "json")]
          (JInt 10) g]).
Proof.
  unfold get_weather.
  destruct (String.eqb_spec city "") as [->|Hcity].
  { left. simpl. split; [apply new_calls_same | eauto]. }
  destruct (os_getenv net "AMAP_MAPS_API_KEY" (outside s)) as [[|a key]|] eqn:Hkey; simpl.
  - left. split; [apply new_calls_same | eauto].
  - right. unfold tbind, call, lift.
    match goal with
    | |- context [requests_get net ?u ?p ?t (outside s)] =>
        destruct (requests_get net u p t (outside s)) as [[e|data] w]
    end.
    + exists (String a key). eexists. repeat split; try assumption; try discriminate.
      simpl. apply new_calls_snoc.
    + exists (String a key). eexists. repeat split; try assumption; try discriminate.
      destruct (casts_of net data); simpl; apply new_calls_snoc.
  - left. split; [apply new_calls_same | eauto].
Qed.

(** X25: when the request itself fails with a library exception,
    [get_weather] reports it by the first [except] clause that
    matches: as [RequestException("网络请求失败:...")] if it is a
    [RequestException], also when it is a [JSONDecodeError] as well;
    as [ValueError("API响应格式错误:...")] if it is a [JSONDecodeError]
    only; and unchanged otherwise. *)
Theorem get_weather_reports_request_failures city s a key l w :
  city <> "" ->
  os_getenv net "AMAP_MAPS_API_KEY" (outside s) = Some (String a key) ->
  requests_get net amap_url
    [("key", String a key); ("city", city); ("extensions", "all"); ("output", "json")]
    (JInt 10) (outside s) = (inl (Library l), w) ->
  fst (get_weather net city s)
  = inl (if lib_is_RequestException l
         then RequestException ("网络请求失败:" +:+ lib_text l)
         else if lib_is_JSONDecodeError l
              then ValueError ("API响应格式错误:" +:+ lib_text l)
              else Library l).
Proof.
  intros Hcity Hkey Hreq. unfold get_weather.
  destruct (String.eqb_spec city "") as [->|_]; [contradiction|].
  rewrite Hkey. simpl. unfold tbind, call. rewrite Hreq. reflexivity.
Qed.

Lemma emap_Forall2 {A B} (f : A -> Exc + B) (l : list A) ys :
  emap f l = inr ys -> Forall2 (fun x y => f x = inr y) l ys.
Proof.
  revert ys. induction l as [|x l IH]; simpl; intros ys H.
  - inversion H. constructor.
  - unfold ebind in H. destruct (f x) as [e|y] eqn:Hx; [discriminate|].
    destruct (emap f l) as [e|ys'] eqn:Hl; [discriminate|].
    inversion H; subst. constructor; auto.
Qed.

Lemma project_cast_keys cast row :
  project_cast cast = inr row ->
  exists members, row = JObj members /\ map fst members = cast_keys.
Proof.
  unfold project_cast, ebind.
  destruct (emap (fun k => dict_get cast k JNull) cast_keys) as [e|values] eqn:Hv;
    [discriminate|].
  intros H. assert (row = JObj (zip cast_keys values)) as -> by congruence.
  exists (zip cast_keys values). split; [reflexivity|].
  apply emap_Forall2, Forall2_length in Hv.
  apply (fst_zip cast_keys values). lia.
Qed.

Lemma casts_of_rows data v :
  casts_of net data = inr v ->
  exists casts rows,
    v = JArr rows /\
    (exists members forecasts first,
       data = JObj members /\
       obj_get "status" members = Some (JStr "1") /\
       obj_get "forecasts" members = Some forecasts /\
       getitem0 forecasts = inr first /\
       getitem first "casts" = inr casts) /\
    (exists items, iterate casts = inr items /\
                   Forall2 (fun cast row => project_cast cast = inr row) items rows).
Proof.
  unfold casts_of, ebind, dict_get, getitem at 1.
  destruct data as [| | | | |items|members]; try discriminate.
  destruct (obj_get "status" members) as [status|] eqn:Hs;
    [| simpl; destruct (obj_get "info" members); discriminate].
  destruct (eq_str status "1") eqn:Hone; simpl;
    [| destruct (obj_get "info" members); discriminate].
  destruct status as [| | | |st| |]; try discriminate.
  apply String.eqb_eq in Hone. subst st.
  destruct (obj_get "forecasts" members) as [forecasts|] eqn:Hf; simpl; [|discriminate].
  destruct (truthy forecasts); simpl; [|discriminate].
  destruct (getitem0 forecasts) as [e|first] eqn:H0; [discriminate|].
  destruct (getitem first "casts") as [e|casts] eqn:Hc; [discriminate|].
  destruct (iterate casts) as [e|its] eqn:Hi; [discriminate|].
  destruct (emap project_cast its) as [e|rows] eqn:Hr; [discriminate|].
  intros H. inversion H; subst.
  exists casts, rows. split; [reflexivity|]. split.
  - exists members, forecasts, first. auto.
  - exists its. split; [exact Hi|]. now apply emap_Forall2.
Qed.

Lemma get_weather_ok city s v s' :
  get_weather net city s = (inr v, s') ->
  exists data, In (RequestsGet amap_url
                     [("key", match os_getenv net "AMAP_MAPS_API_KEY" (outside s)
                              with Some k => k | None => "" end);
                      ("city", city); ("extensions", "all"); ("output", "json")]
                     (JInt 10) (inr data)) (new_calls s s') /\
               casts_of net data = inr v.
Proof.
  unfold get_weather.
  destruct (String.eqb city ""); [discriminate|].
  destruct (falsy_text (os_getenv net "AMAP_MAPS_API_KEY" (outside s))); [discriminate|].
  unfold tbind, call, lift.
  match goal with
  | |- context [requests_get net ?u ?p ?t (outside s)] =>
      destruct (requests_get net u p t (outside s)) as [[e|data] w]
  end; [discriminate|].
  destruct (casts_of net data) as [e|v'] eqn:Hc; [discriminate|].
  intros H. inversion H; subst. exists data. split; [|exact Hc].
  rewrite new_calls_snoc. now left.
Qed.

(** X26: every entry of the list [get_weather] returns is a dictionary
    with exactly the nine keys [date], [dayweather], [nightweather],
    [daytemp], [nighttemp], [daywind], [nightwind], [daypower] and
    [nightpower], in this order, whatever keys the casts of the answer
    have. *)
Theorem get_weather_rows_have_the_nine_keys city s v s' :
  get_weather net city s = (inr v, s') ->
  exists rows,
    v = JArr rows /\
    Forall (fun row => exists members, row = JObj members /\ map fst members = cast_keys)
           rows.
Proof.
  intros H. destruct (get_weather_ok _ _ _ _ H) as (data & _ & Hc).
  destruct (casts_of_rows _ _ Hc) as (casts & rows & -> & _ & items & _ & Hrows).
  exists rows. split; [reflexivity|]. clear -Hrows.
  induction Hrows as [|cast row items rows Hrow _ IH]; constructor; [|exact IH].
  exact (project_cast_keys _ _ Hrow).
Qed.


(** X28: of the ["forecasts"] of an answer only the first entry is
    read: two answers with status ["1"] whose forecast lists start
    with the same entry give the same result. *)
Theorem casts_come_from_the_first_forecast members1 members2 first rest1 rest2 :
  obj_get "status" members1 = Some (JStr "1") ->
  obj_get "status" members2 = Some (JStr "1") ->
  obj_get "forecasts" members1 = Some (JArr (first :: rest1)) ->
  obj_get "forecasts" members2 = Some (JArr (first :: rest2)) ->
  casts_of net (JObj members1) = casts_of net (JObj members2).
Proof.
  intros S1 S2 F1 F2. unfold casts_of, ebind, dict_get, getitem at 1 3.
  rewrite S1, S2, F1, F2. reflexivity.
Qed.

End Facts.

End AmapServerFacts.


(** * Instances on the example environments *)

Import Examples.

Lemma failing_tool_call_witness :
  fst (process_query broken_env 1 "hi" (ready broken_env ["a.py"]))
  = Raise dict_has_no_content.
Proof.
  edestruct (failing_tool_call_raises_attribute_error broken_env 0 0 "hi"
               (ready broken_env ["a.py"]))
    with (pre := @nil ToolCall) (post := @nil ToolCall)
    as (s'' & H & _).
  - eapply query_start_intro; reflexivity.
  - apply nsteps_O.
  - reflexivity.
  - reflexivity.
  - reflexivity.
  - reflexivity.
  - reflexivity.
  - reflexivity.
  - simpl in H. rewrite H. reflexivity.
Defined.

Lemma bad_json_witness :
  fst (process_query bad_json_env 1 "hi" (ready bad_json_env ["a.py"]))
  = Raise {| exc_class := JSONDecodeError;
             exc_text := "Expecting property name enclosed in double quotes: line 1 column 2 (char 1)" |}.
Proof.
  edestruct (bad_json_arguments_abort_query bad_json_env 0 0 "hi"
               (ready bad_json_env ["a.py"]))
    with (pre := @nil ToolCall) (post := @nil ToolCall)
    as [_ H].
  - eapply query_start_intro; reflexivity.
  - apply nsteps_O.
  - reflexivity.
  - reflexivity.
  - reflexivity.
  - reflexivity.
  - simpl in H. rewrite H. reflexivity.
Defined.

Lemma tool_not_found_witness :
  fst (process_tool_call unknown_env (request "c2" "server0_get_forecast" "{}")
         [UserMessage "hi"] [""] (ready unknown_env ["a.py"]))
  = Ret ([UserMessage "hi"], [""; "工具 server0_get_forecast 未找到"]).
Proof.
  destruct (tool_not_found_noted_in_transcript_only unknown_env
              (request "c2" "server0_get_forecast" "{}") []
              [UserMessage "hi"] [""] (ready unknown_env ["a.py"]))
    as (H & _ & _).
  - reflexivity.
  - rewrite H. reflexivity.
Defined.

(** The request for the unregistered tool leaves the message list as
    it was: the next inference call is sent the user message alone. *)
Lemma not_found_note_absent_from_messages :
  conversations
    (new_events (ready unknown_env ["a.py"])
       (snd (process_query unknown_env 1 "hi" (ready unknown_env ["a.py"]))))
  = [[UserMessage "hi"]; [UserMessage "hi"]] /\
  ~ (exists note final_text,
       fst (process_tool_call unknown_env (request "c2" "server0_get_forecast" "{}")
              [UserMessage "hi"] [""] (ready unknown_env ["a.py"]))
       = Ret ([UserMessage "hi"; note], final_text)).
Proof.
  split; [reflexivity|].
  intros (note & final_text & H). vm_compute in H. discriminate H.
Qed.

Lemma single_inference_witness :
  fst (process_query plain_env 0 "hi" (ready plain_env ["a.py"])) = Ret "hello".
Proof.
  edestruct (no_tool_calls_single_inference plain_env 0 "hi" (ready plain_env ["a.py"]))
    as [H _].
  - reflexivity.
  - reflexivity.
  - left. reflexivity.
  - rewrite H. reflexivity.
Defined.

Lemma resolved_requests_witness :
  length (List.filter is_call_tool
            (new_events (ready weather_env ["a.py"; "b.py"])
               (snd (while_body weather_env two_requests [UserMessage "hi"] [""] []
                       (ready weather_env ["a.py"; "b.py"])))))
  = 2.
Proof.
  edestruct (resolved_requests_called_in_order weather_env two_requests
               [UserMessage "hi"] [""] [] (ready weather_env ["a.py"; "b.py"]))
    as (invs & messages' & r & _ & _ & Hcount & _).
  - unfold two_requests.
    constructor; [vm_compute; eexists; reflexivity|].
    constructor; [vm_compute; eexists; reflexivity|].
    constructor.
  - unfold two_requests.
    constructor; [eexists; reflexivity|].
    constructor; [eexists; reflexivity|].
    constructor.
  - apply surjective_pairing.
  - vm_compute.
    constructor; [eexists _, _; reflexivity|].
    constructor; [eexists _, _; reflexivity|].
    constructor; [exact I|].
    constructor.
  - exact Hcount.
Defined.

Lemma two_names_distinct : NoDup (map tool_name [get_weather; get_alerts]).
Proof. apply (bool_decide_unpack _). vm_compute. exact I. Qed.

Lemma namespace_witness :
  size (tool_mapping (self (ready weather_env ["a.py"; "b.py"]))) = 4.
Proof.
  destruct (namespace_after_initialization weather_env
              (start ["a.py"; "b.py"] []) (ready weather_env ["a.py"; "b.py"]))
    as (_ & _ & _ & _ & Hsize & _).
  - reflexivity.
  - vm_compute; reflexivity.
  - rewrite Hsize.
    + vm_compute; reflexivity.
    + assert (Hadv : advertised (new_events (start ["a.py"; "b.py"] [])
                                   (ready weather_env ["a.py"; "b.py"]))
                     = [(0, [get_weather; get_alerts]); (1, [get_weather; get_alerts])])
        by (vm_compute; reflexivity).
      rewrite Hadv. unfold names_distinct.
      constructor; [exact two_names_distinct|].
      constructor; [exact two_names_distinct|].
      constructor.
Defined.



(** ** Where the code departs from the stated behaviour *)

(** The server's tool list has grown by the time of the second
    inference call, but the call carries the catalog of the first. *)
Lemma catalog_stale_after_tool_change :
  catalogs
    (new_events (ready growing_env ["a.py"])
       (snd (process_query growing_env 2 "hi" (ready growing_env ["a.py"]))))
  = [[tool_spec "server0" get_weather]; [tool_spec "server0" get_weather]] /\
  fst (collect_tools growing_env
         (sessions (self (ready growing_env ["a.py"]))) []
         (snd (process_query growing_env 2 "hi" (ready growing_env ["a.py"]))))
  = Ret [tool_spec "server0" get_weather; tool_spec "server0" get_alerts].
Proof. split; vm_compute; reflexivity. Qed.

(** The response carries one request, which resolves in the tool
    mapping, but its arguments are not JSON: no tool is called, no
    further inference call is made and no message is recorded; the
    query ends with the error of [json.loads]. *)
Lemma resolved_request_with_bad_arguments_not_called :
  is_Some (tool_mapping (self (ready bad_json_env ["a.py"])) !! "server0_get_weather") /\
  new_events (ready bad_json_env ["a.py"])
    (snd (process_query bad_json_env 1 "hi" (ready bad_json_env ["a.py"])))
  = [EvListTools 0 (inr [get_weather]);
     EvCreate [UserMessage "hi"] [tool_spec "server0" get_weather]
       (inr [asks [request "c1" "server0_get_weather" "{city: Paris"]])] /\
  fst (process_query bad_json_env 1 "hi" (ready bad_json_env ["a.py"]))
  = Raise {| exc_class := JSONDecodeError;
             exc_text := "Expecting property name enclosed in double quotes: line 1 column 2 (char 1)" |}.
Proof.
  split; [vm_compute; eexists; reflexivity|].
  split; vm_compute; reflexivity.
Qed.

(** The second registration of [server0_get_weather] meets the entry
    of the first; [initialize_sessions] returns all the same. *)
Lemma duplicate_registration_not_reported :
  advertised (trace (ready twice_env ["a.py"])) = [(0, [get_weather; get_weather])] /\
  fst (initialize_sessions twice_env (start ["a.py"] [])) = Ret tt.
Proof. split; vm_compute; reflexivity. Qed.

(** The proviso on the names within one server is needed for the
    count: a server that lists a name twice gets one entry for it. *)
Lemma duplicate_names_shrink_namespace :
  tool_count (advertised (trace (ready twice_env ["a.py"]))) = 2 /\
  size (tool_mapping (self (ready twice_env ["a.py"]))) = 1.
Proof. split; vm_compute; reflexivity. Qed.




(** ** Instances of the further properties *)

Lemma prefixed_names_witness :
  prefixed (server_id 1) "0_get" <> prefixed (server_id 10) "get".
Proof. apply prefixed_names_of_distinct_servers_differ. lia. Defined.


Lemma sessions_witness :
  sessions (self (ready weather_env ["a.py"; "b.py"])) = [("server0", 0); ("server1", 1)].
Proof.
  etransitivity.
  - apply (sessions_listed_in_configuration_order weather_env (start ["a.py"; "b.py"] [])).
    + reflexivity.
    + vm_compute. reflexivity.
  - vm_compute. reflexivity.
Defined.

Lemma catalog_witness :
  is_Some (tool_mapping (self (ready weather_env ["a.py"; "b.py"])) !! "server1_get_alerts").
Proof.
  apply (catalog_offers_exactly_the_registered_names weather_env
           (start ["a.py"; "b.py"] []) (ready weather_env ["a.py"; "b.py"])
           (catalog_from 0 (advertised (trace (ready weather_env ["a.py"; "b.py"]))))
           (snd weather_collect)).
  - reflexivity.
  - reflexivity.
  - vm_compute. reflexivity.
  - vm_compute. reflexivity.
  - vm_compute. reflexivity.
  - apply list_elem_of_In. vm_compute. auto 10.
Defined.

Lemma chat_quit_witness :
  exists line,
    last (trace (snd (chat_loop plain_env 3 3 (start [] ["hi"; "quit"]))))
    = Some (EvInput (inr line)) /\
    str_lower plain_env (str_strip plain_env line) = "quit".
Proof.
  apply (chat_loop_returns_only_on_quit plain_env 3 3 (start [] ["hi"; "quit"])).
  vm_compute. reflexivity.
Defined.

(** At end of file [input()] raises [EOFError]: the error is printed
    and the next prompt follows.  A [KeyboardInterrupt] at the prompt
    leaves the loop. *)
Lemma chat_interrupt_witness :
  new_events (start [] [])
    (snd (chat_while (at_eof plain_env) 3 2 (start [] [])))
  = [EvInput (inl {| exc_class := EOFError; exc_text := "EOF when reading a line" |});
     EvPrint "
发生错误: EOF when reading a line";
     EvInput (inl {| exc_class := EOFError; exc_text := "EOF when reading a line" |});
     EvPrint "
发生错误: EOF when reading a line"] /\
  is_Exception (exc_class {| exc_class := KeyboardInterrupt; exc_text := "" |}) = false.
Proof.
  split.
  - destruct (chat_loop_contains_exceptions (at_eof plain_env) 3 1 (start [] []))
      as [_ H].
    destruct (H {| exc_class := EOFError; exc_text := "EOF when reading a line" |}
                (snd (chat_turn (at_eof plain_env) 3 (start [] [])))
                eq_refl eq_refl) as [Heq _].
    rewrite Heq. vm_compute. reflexivity.
  - destruct (chat_loop_contains_exceptions plain_env 3 3 (start [] ["hi"])) as [H _].
    apply (H _ (snd (chat_loop plain_env 3 3 (start [] ["hi"])))).
    vm_compute. reflexivity.
Defined.



Import Py ServerExamples.

Lemma request_open_failure_witness :
  In (ClientOpen (Some TypeError))
     (new_calls idle
        (snd (WeatherServer.make_nws_request (network (Some TypeError) None inr)
                (JStr "u") idle))) \/
  In (ClientClose (Some TypeError))
     (new_calls idle
        (snd (WeatherServer.make_nws_request (network (Some TypeError) None inr)
                (JStr "u") idle))) \/
  Py.is_Exception TypeError = false.
Proof.
  apply (WeatherServerFacts.request_raises_no_Exception_of_the_get
           (network (Some TypeError) None inr) (JStr "u") idle).
  vm_compute. reflexivity.
Defined.

Lemma alert_null_witness :
  exists text,
    WeatherServer.format_alert (network None None inr)
      (JObj [("properties", JObj [("event", JStr "Flood"); ("severity", JNull)])])
    = inr text /\
    In "            严重程度: None" (split_lines text).
Proof.
  apply (WeatherServerFacts.alert_field_null_reads_None (network None None inr)
           "severity" "严重程度" _ [("event", JStr "Flood"); ("severity", JNull)]).
  - simpl. auto.
  - reflexivity.
  - reflexivity.
Defined.

Lemma alert_absent_witness :
  WeatherServer.format_alert (network None None inr)
    (JObj [("properties", JObj [("event", JStr "Flood")])])
  = WeatherServer.format_alert (network None None inr)
      (JObj [("properties", JObj [("description", JStr "无描述"); ("event", JStr "Flood")])]).
Proof.
  apply (WeatherServerFacts.alert_field_absent_reads_placeholder (network None None inr)
           "description" "无描述" _ _ [("event", JStr "Flood")]).
  - simpl. auto.
  - reflexivity.
  - reflexivity.
  - reflexivity.
Defined.

Lemma get_alerts_failure_witness :
  fst (WeatherServer.get_alerts (network None None (fun _ => inl timed_out)) "CA" idle)
  = inr WeatherServer.no_alert_data.
Proof.
  rewrite (WeatherServerFacts.get_alerts_survives_failed_request
             (network None None (fun _ => inl timed_out)) "CA" idle tt timed_out tt tt);
    reflexivity.
Defined.

Lemma alerts_entry_witness :
  exists text,
    WeatherServer.alerts_of (network None None inr) (JObj [("features", JArr [flood])])
    = inr text.
Proof.
  destruct (WeatherServerFacts.alerts_of_features_entry (network None None inr)
              [("features", JArr [flood])] (JArr [flood]) eq_refl) as [_ H].
  apply (H [flood] eq_refl); [discriminate|].
  constructor; [|constructor]. eexists _, _. split; reflexivity.
Defined.

Lemma five_periods_witness :
  WeatherServer.forecast_of (network None None inr) (forecast_answer six_periods)
  = WeatherServer.forecast_of (network None None inr) (forecast_answer (take 5 six_periods)).
Proof.
  apply (WeatherServerFacts.forecast_reads_first_five_periods (network None None inr)
           _ _ (JObj [("periods", JArr six_periods)])
           (JObj [("periods", JArr (take 5 six_periods))])
           six_periods (take 5 six_periods)); reflexivity.
Defined.

Lemma forecast_key_error_witness :
  fst (WeatherServer.get_forecast
         (network None None (fun _ => inr (JObj [("status", JInt 404)])))
         "26.08" "119.3" idle)
  = inl (KeyError (JStr "properties")).
Proof.
  rewrite (WeatherServerFacts.get_forecast_raises_on_answer_without_properties
             (network None None (fun _ => inr (JObj [("status", JInt 404)])))
             "26.08" "119.3" idle tt [("status", JInt 404)] tt tt);
    try reflexivity.
  discriminate.
Defined.

Lemma request_failure_report_witness :
  fst (AmapServer.get_weather
         (network None (Some "k") (fun _ => inl (Library bad_body))) "福州" idle)
  = inl (RequestException ("网络请求失败:" +:+ lib_text bad_body)).
Proof.
  rewrite (AmapServerFacts.get_weather_reports_request_failures
             (network None (Some "k") (fun _ => inl (Library bad_body)))
             "福州" idle "k" "" bad_body tt).
  - reflexivity.
  - discriminate.
  - reflexivity.
  - reflexivity.
Defined.

Lemma nine_keys_witness :
  exists rows,
    fst fuzhou_run = inr (JArr rows) /\
    Forall (fun row => exists members,
                row = JObj members /\ map fst members = AmapServer.cast_keys) rows.
Proof.
  destruct (AmapServerFacts.get_weather_rows_have_the_nine_keys
              (network None (Some "k") (fun _ => inr (amap_answer [fuzhou; JNull])))
              "福州" idle
              (match fst fuzhou_run with inr v => v | inl _ => JNull end)
              (snd fuzhou_run))
    as (rows & Hv & Hrows).
  - vm_compute. reflexivity.
  - exists rows. split; [|exact Hrows].
    rewrite <- Hv. vm_compute. reflexivity.
Defined.


Lemma first_forecast_witness :
  AmapServer.casts_of (network None None inr) (amap_answer [fuzhou; JNull])
  = AmapServer.casts_of (network None None inr) (amap_answer [fuzhou]).
Proof.
  apply (AmapServerFacts.casts_come_from_the_first_forecast (network None None inr)
           _ _ fuzhou [JNull] []); reflexivity.
Defined.
